(** * proxytest.baseHost: the emulated proxy-wasm host of the Go SDK

    A shallow embedding of [proxytest/base.go]: the in-process host that
    answers the plugin's foreign calls in unit tests (log capture, tick
    period, shared queues, the CAS-guarded shared data store, metrics),
    followed by the properties of that state machine.

    Conventions of the embedding.
    - A [uint32] or [uint64] is a [Z] in the range of its type; the
      conversions [uint32(x)], [uint64(x)] and the wrap-around of [+] are
      written out with [uint32] and [uint64] below.
    - A Go map is a [gmap]; [len(m)] is [size m]; reading a missing key
      with the one-result form yields the zero value ([default]).
    - A [string] or [[]byte] argument arrives as an address and a length
      and is rebuilt with [reflect.SliceHeader]; here it is the value
      itself ([string], [bytes]).  A returned [*byte] (the address of
      the first byte of a payload) is the payload.
    - A method [func (b *baseHost) M(args) types.Status] becomes
      [M : baseHost -> args -> outcome outs * baseHost]: the status and
      the output parameters written, paired with the host afterwards.
      A Go run-time panic is the outcome [Panicked].
    - The calls to [log.Printf] (the diagnostic sink) are not part of the
      state and are left out.  [hostMux] is taken by the callers of these
      methods: calls are modelled one at a time.  [getBuffer], which only
      panics with "unimplemented", is left out. *)

From stdpp Require Import gmap strings list fin_maps.
From Stdlib Require Import ZArith Lia.

Local Open Scope Z_scope.

(** ** Machine integers *)

Definition uint32 (z : Z) : Z := z mod 2 ^ 32.
Definition uint64 (z : Z) : Z := z mod 2 ^ 64.

(** [[]byte] *)
Abbreviation bytes := (list Byte.byte).

(** ** The constants of package [types] used by the host *)

(** Modelled from the spec: [types.Status] is declared in package
    [proxywasm/types], outside this file; these are the statuses the spec
    enumerates ([OK], [NotFound], [Empty], [CasMismatch], [BadArgument]),
    under the names the source uses. *)
Inductive Status : Set :=
| StatusOK
| StatusNotFound
| StatusBadArgument
| StatusEmpty
| StatusCasMismatch.

(** Modelled from the spec: [types.MetricType] is declared in package
    [proxywasm/types]; the spec names the kinds counter, gauge and
    histogram. *)
Inductive MetricType : Set :=
| MetricTypeCounter
| MetricTypeGauge
| MetricTypeHistogram.

#[global] Instance Status_eq_dec : EqDecision Status.
Proof. solve_decision. Defined.

#[global] Instance MetricType_eq_dec : EqDecision MetricType.
Proof. solve_decision. Defined.

(** ** Outcome of a call *)

(** [Returned st out]: the method returned status [st] after writing the
    output parameters recorded in [out].  [Panicked out]: the Go run time
    panicked (index out of range) after writing [out]; nothing after the
    panicking statement was executed. *)
Inductive outcome (A : Type) : Type :=
| Returned (st : Status) (out : A)
| Panicked (out : A).
Arguments Returned {A} st out.
Arguments Panicked {A} out.

(** Output parameters [returnValueData **byte, returnValueSize *int];
    [None] is a parameter the call did not write. *)
Record bufferOut : Type := mkBufferOut {
  returnValueData : option bytes;
  returnValueSize : option Z
}.

(** Output parameters of [ProxyGetSharedData]. *)
Record sharedDataOut : Type := mkSharedDataOut {
  sdValueData : option bytes;
  sdValueSize : option Z;
  sdCas : option Z
}.

(** ** The host state *)

(** [type sharedData struct { data []byte; cas uint32 }] *)
Record sharedData : Type := mkSharedData {
  data : bytes;
  cas : Z
}.

(** [type baseHost struct].  [logs] is the array
    [[types.LogLevelMax][]string], a list whose length is
    [LogLevelMax] (see [wf_logs]).  [sharedDataKVS] maps a key to a
    pointer to its own [sharedData] cell, allocated when the key is
    created and never shared between keys: the cell is stored in the map. *)
Record baseHost : Type := mkBaseHost {
  logs : list (list string);
  tickPeriod : Z;
  queues : gmap Z (list bytes);
  queueNameID : gmap string Z;
  sharedDataKVS : gmap string sharedData;
  metricIDToValue : gmap Z Z;
  metricIDToType : gmap Z MetricType;
  metricNameToID : gmap string Z
}.

Definition set_logs (x : list (list string)) (b : baseHost) : baseHost :=
  mkBaseHost x (tickPeriod b) (queues b) (queueNameID b) (sharedDataKVS b)
             (metricIDToValue b) (metricIDToType b) (metricNameToID b).

Definition set_tickPeriod (x : Z) (b : baseHost) : baseHost :=
  mkBaseHost (logs b) x (queues b) (queueNameID b) (sharedDataKVS b)
             (metricIDToValue b) (metricIDToType b) (metricNameToID b).

Definition set_queues (x : gmap Z (list bytes)) (b : baseHost) : baseHost :=
  mkBaseHost (logs b) (tickPeriod b) x (queueNameID b) (sharedDataKVS b)
             (metricIDToValue b) (metricIDToType b) (metricNameToID b).

Definition set_queueNameID (x : gmap string Z) (b : baseHost) : baseHost :=
  mkBaseHost (logs b) (tickPeriod b) (queues b) x (sharedDataKVS b)
             (metricIDToValue b) (metricIDToType b) (metricNameToID b).

Definition set_sharedDataKVS (x : gmap string sharedData) (b : baseHost) : baseHost :=
  mkBaseHost (logs b) (tickPeriod b) (queues b) (queueNameID b) x
             (metricIDToValue b) (metricIDToType b) (metricNameToID b).

Definition set_metricIDToValue (x : gmap Z Z) (b : baseHost) : baseHost :=
  mkBaseHost (logs b) (tickPeriod b) (queues b) (queueNameID b) (sharedDataKVS b)
             x (metricIDToType b) (metricNameToID b).

Definition set_metricIDToType (x : gmap Z MetricType) (b : baseHost) : baseHost :=
  mkBaseHost (logs b) (tickPeriod b) (queues b) (queueNameID b) (sharedDataKVS b)
             (metricIDToValue b) x (metricNameToID b).

Definition set_metricNameToID (x : gmap string Z) (b : baseHost) : baseHost :=
  mkBaseHost (logs b) (tickPeriod b) (queues b) (queueNameID b) (sharedDataKVS b)
             (metricIDToValue b) (metricIDToType b) x.

(** ** Log store and tick period *)

Section Logs.
(** [types.LogLevelMax], the number of log levels, is a constant of
    package [types]; [types.LogLevel] is an unsigned integer type. *)
Variable LogLevelMax : nat.

(** [func newBaseHost() *baseHost]: the six maps are empty, the
    [logs] array holds [LogLevelMax] nil slices and [tickPeriod] is 0. *)
Definition newBaseHost : baseHost :=
  mkBaseHost (replicate LogLevelMax []) 0 ∅ ∅ ∅ ∅ ∅ ∅.

(** [func (b *baseHost) GetLogs(level types.LogLevel) []string].
    [None] is [log.Fatalf]: the process exits. *)
Definition GetLogs (b : baseHost) (level : nat) : option (list string) :=
  if decide (LogLevelMax ≤ level)%nat then None
  else Some (default [] (logs b !! level)).

(** The [logs] field has the length of its array type. *)
Definition wf_logs (b : baseHost) : Prop :=
  length (logs b) = LogLevelMax.
End Logs.

(** [func (b *baseHost) ProxyLog(logLevel, messageData, messageSize)].
    [b.logs[logLevel]] indexes an array: an index outside it is a run-time
    panic, raised before anything is stored. *)
Definition ProxyLog (b : baseHost) (logLevel : nat) (str : string)
  : outcome unit * baseHost :=
  match logs b !! logLevel with
  | None => (Panicked (), b)
  | Some bucket =>
      (Returned StatusOK (), set_logs (<[logLevel := bucket ++ [str]]> (logs b)) b)
  end.

(** [func (b *baseHost) ProxySetTickPeriodMilliseconds(period uint32)] *)
Definition ProxySetTickPeriodMilliseconds (b : baseHost) (period : Z)
  : outcome unit * baseHost :=
  (Returned StatusOK (), set_tickPeriod period b).

(** [func (b *baseHost) GetTickPeriod() uint32] *)
Definition GetTickPeriod (b : baseHost) : Z := tickPeriod b.

(** ** Shared queues *)

Definition noBuffer : bufferOut := mkBufferOut None None.

(** [func (b *baseHost) ProxyRegisterSharedQueue(nameData, nameSize, returnID)] *)
Definition ProxyRegisterSharedQueue (b : baseHost) (name : string)
  : outcome (option Z) * baseHost :=
  match queueNameID b !! name with
  | Some id => (Returned StatusOK (Some id), b)
  | None =>
      let id := uint32 (Z.of_nat (size (queues b))) in
      (Returned StatusOK (Some id),
       set_queueNameID (<[name := id]> (queueNameID b))
         (set_queues (<[id := []]> (queues b)) b))
  end.

(** [func (b *baseHost) ProxyDequeueSharedQueue(queueID, returnValueData,
    returnValueSize)].  [&data[0]] on a payload of length 0 panics, before
    either output parameter is written and before the queue is updated. *)
Definition ProxyDequeueSharedQueue (b : baseHost) (queueID : Z)
  : outcome bufferOut * baseHost :=
  match queues b !! queueID with
  | None => (Returned StatusNotFound noBuffer, b)
  | Some [] => (Returned StatusEmpty noBuffer, b)
  | Some (data :: rest) =>
      match data with
      | [] => (Panicked noBuffer, b)
      | _ :: _ =>
          (Returned StatusOK
             (mkBufferOut (Some data) (Some (Z.of_nat (length data)))),
           set_queues (<[queueID := rest]> (queues b)) b)
      end
  end.

(** [func (b *baseHost) ProxyEnqueueSharedQueue(queueID, valueData, valueSize)] *)
Definition ProxyEnqueueSharedQueue (b : baseHost) (queueID : Z) (value : bytes)
  : outcome unit * baseHost :=
  match queues b !! queueID with
  | None => (Returned StatusNotFound (), b)
  | Some queue =>
      (Returned StatusOK (),
       set_queues (<[queueID := queue ++ [value]]> (queues b)) b)
  end.

(** [func (b *baseHost) GetQueueSize(queueID uint32) int] *)
Definition GetQueueSize (b : baseHost) (queueID : Z) : Z :=
  Z.of_nat (length (default [] (queues b !! queueID))).

(** ** Shared data *)

Definition noSharedData : sharedDataOut := mkSharedDataOut None None None.

(** [func (b *baseHost) ProxyGetSharedData(keyData, keySize,
    returnValueData, returnValueSize, returnCas)].  [*returnValueSize] is
    written first; [&value.data[0]] then panics on a payload of length 0. *)
Definition ProxyGetSharedData (b : baseHost) (key : string)
  : outcome sharedDataOut * baseHost :=
  match sharedDataKVS b !! key with
  | None => (Returned StatusNotFound noSharedData, b)
  | Some value =>
      let size := Some (Z.of_nat (length (data value))) in
      match data value with
      | [] => (Panicked (mkSharedDataOut None size None), b)
      | _ :: _ =>
          (Returned StatusOK
             (mkSharedDataOut (Some (data value)) size (Some (cas value))), b)
      end
  end.

(** [func (b *baseHost) ProxySetSharedData(keyData, keySize, valueData,
    valueSize, cas)].  On an existing key the two assignments
    [b.sharedDataKVS[key].cas = cas + 1] and
    [b.sharedDataKVS[key].data = value] go through the stored pointer. *)
Definition ProxySetSharedData (b : baseHost) (key : string) (value : bytes)
    (cas_ : Z) : outcome unit * baseHost :=
  match sharedDataKVS b !! key with
  | None =>
      (Returned StatusOK (),
       set_sharedDataKVS
         (<[key := mkSharedData value (uint32 (cas_ + 1))]> (sharedDataKVS b)) b)
  | Some prev =>
      if decide (cas prev ≠ cas_) then (Returned StatusCasMismatch (), b)
      else
        let kvs1 :=
          alter (λ e, mkSharedData (data e) (uint32 (cas_ + 1))) key
                (sharedDataKVS b) in
        let kvs2 := alter (λ e, mkSharedData value (cas e)) key kvs1 in
        (Returned StatusOK (), set_sharedDataKVS kvs2 b)
  end.

(** ** Metrics *)

(** [func (b *baseHost) ProxyDefineMetric(metricType, metricNameData,
    metricNameSize, returnMetricIDPtr)] *)
Definition ProxyDefineMetric (b : baseHost) (metricType : MetricType)
    (name : string) : outcome (option Z) * baseHost :=
  match metricNameToID b !! name with
  | Some id => (Returned StatusOK (Some id), b)
  | None =>
      let id := uint32 (Z.of_nat (size (metricNameToID b))) in
      (Returned StatusOK (Some id),
       set_metricIDToType (<[id := metricType]> (metricIDToType b))
         (set_metricIDToValue (<[id := 0]> (metricIDToValue b))
            (set_metricNameToID (<[name := id]> (metricNameToID b)) b)))
  end.

(** [func (b *baseHost) ProxyIncrementMetric(metricID uint32, offset int64)].
    [uint64(offset)] reinterprets the signed offset; the sum wraps. *)
Definition ProxyIncrementMetric (b : baseHost) (metricID : Z) (offset : Z)
  : outcome unit * baseHost :=
  match metricIDToValue b !! metricID with
  | None => (Returned StatusBadArgument (), b)
  | Some val =>
      (Returned StatusOK (),
       set_metricIDToValue
         (<[metricID := uint64 (val + uint64 offset)]> (metricIDToValue b)) b)
  end.

(** [func (b *baseHost) ProxyRecordMetric(metricID uint32, value uint64)] *)
Definition ProxyRecordMetric (b : baseHost) (metricID : Z) (value : Z)
  : outcome unit * baseHost :=
  match metricIDToValue b !! metricID with
  | None => (Returned StatusBadArgument (), b)
  | Some _ =>
      (Returned StatusOK (),
       set_metricIDToValue (<[metricID := value]> (metricIDToValue b)) b)
  end.

(** [func (b *baseHost) ProxyGetMetric(metricID uint32, returnMetricValue *uint64)] *)
Definition ProxyGetMetric (b : baseHost) (metricID : Z)
  : outcome (option Z) * baseHost :=
  match metricIDToValue b !! metricID with
  | None => (Returned StatusBadArgument None, b)
  | Some value => (Returned StatusOK (Some value), b)
  end.

(** ** Sequences of calls

    A test drives the host with a sequence of calls under [hostMux], one
    at a time.  [call] names a call of a state-changing or status-returning
    method with its arguments, [response] what it answered.  The readers
    [GetLogs], [GetTickPeriod] and [GetQueueSize] do not change the host
    and are applied to the host between calls.  A caller that recovers a
    panic goes on with the host as the panic left it. *)
Inductive call : Type :=
| CallLog (logLevel : nat) (str : string)
| CallSetTickPeriod (period : Z)
| CallRegisterSharedQueue (name : string)
| CallDequeueSharedQueue (queueID : Z)
| CallEnqueueSharedQueue (queueID : Z) (value : bytes)
| CallGetSharedData (key : string)
| CallSetSharedData (key : string) (value : bytes) (cas_ : Z)
| CallDefineMetric (metricType : MetricType) (name : string)
| CallIncrementMetric (metricID : Z) (offset : Z)
| CallRecordMetric (metricID : Z) (value : Z)
| CallGetMetric (metricID : Z).

Inductive response : Type :=
| RespStatus (o : outcome unit)
| RespID (o : outcome (option Z))
| RespBuffer (o : outcome bufferOut)
| RespSharedData (o : outcome sharedDataOut).

Definition answer {A} (wrap : outcome A → response)
    (r : outcome A * baseHost) : response * baseHost :=
  (wrap r.1, r.2).

Definition step (b : baseHost) (c : call) : response * baseHost :=
  match c with
  | CallLog l s => answer RespStatus (ProxyLog b l s)
  | CallSetTickPeriod p => answer RespStatus (ProxySetTickPeriodMilliseconds b p)
  | CallRegisterSharedQueue n => answer RespID (ProxyRegisterSharedQueue b n)
  | CallDequeueSharedQueue q => answer RespBuffer (ProxyDequeueSharedQueue b q)
  | CallEnqueueSharedQueue q v => answer RespStatus (ProxyEnqueueSharedQueue b q v)
  | CallGetSharedData k => answer RespSharedData (ProxyGetSharedData b k)
  | CallSetSharedData k v c => answer RespStatus (ProxySetSharedData b k v c)
  | CallDefineMetric t n => answer RespID (ProxyDefineMetric b t n)
  | CallIncrementMetric i d => answer RespStatus (ProxyIncrementMetric b i d)
  | CallRecordMetric i v => answer RespStatus (ProxyRecordMetric b i v)
  | CallGetMetric i => answer RespID (ProxyGetMetric b i)
  end.

(** The host after a sequence of calls. *)
Definition run (b : baseHost) (tr : list call) : baseHost :=
  foldl (λ h c, (step h c).2) b tr.

(** The calls of a sequence with the host each one found, its response
    and the host it left. *)
Record event : Type := mkEvent {
  ev_before : baseHost;
  ev_call : call;
  ev_resp : response;
  ev_after : baseHost
}.

Fixpoint events (b : baseHost) (tr : list call) : list event :=
  match tr with
  | [] => []
  | c :: tr' =>
      let r := step b c in
      mkEvent b c r.1 r.2 :: events r.2 tr'
  end.

(** Hosts a test can reach from a new one. *)
Definition reachable (LogLevelMax : nat) (b : baseHost) : Prop :=
  ∃ tr, b = run (newBaseHost LogLevelMax) tr.

(** *** Observations on a sequence of calls *)

(** The ID answered by a call of [ProxyRegisterSharedQueue]. *)
Definition registered_id (e : event) : option Z :=
  match ev_call e, ev_resp e with
  | CallRegisterSharedQueue _, RespID (Returned StatusOK (Some id)) => Some id
  | _, _ => None
  end.

Definition registered_name (c : call) : option string :=
  match c with
  | CallRegisterSharedQueue n => Some n
  | _ => None
  end.

(** IDs answered by the calls of [ProxyRegisterSharedQueue], in call order. *)
Definition register_ids (b : baseHost) (tr : list call) : list Z :=
  omap registered_id (events b tr).

(** Names passed to [ProxyRegisterSharedQueue], in call order. *)
Definition register_names (tr : list call) : list string :=
  omap registered_name tr.

(** A successful write to [key]: the [expectedCas] passed and the CAS
    stored for [key] when the call returned. *)
Definition accepted_write (key : string) (e : event) : option (Z * Z) :=
  match ev_call e, ev_resp e with
  | CallSetSharedData k _ c, RespStatus (Returned StatusOK _) =>
      if decide (k = key)
      then (λ d, (c, cas d)) <$> sharedDataKVS (ev_after e) !! key
      else None
  | _, _ => None
  end.

Definition accepted_writes (key : string) (b : baseHost) (tr : list call)
  : list (Z * Z) :=
  omap (accepted_write key) (events b tr).

(** The CAS values observed across the successful writes to [key]. *)
Definition cas_sequence (key : string) (b : baseHost) (tr : list call) : list Z :=
  (accepted_writes key b tr).*2.

(** Messages logged at [level] by the calls of [ProxyLog] that returned. *)
Definition logged_message (level : nat) (e : event) : option string :=
  match ev_call e, ev_resp e with
  | CallLog l s, RespStatus (Returned StatusOK _) =>
      if decide (l = level) then Some s else None
  | _, _ => None
  end.

Definition logged (level : nat) (b : baseHost) (tr : list call) : list string :=
  omap (logged_message level) (events b tr).

(** Payloads handed out by the successful dequeues from [queueID]. *)
Definition dequeued_payload (queueID : Z) (e : event) : option bytes :=
  match ev_call e, ev_resp e with
  | CallDequeueSharedQueue q, RespBuffer (Returned StatusOK out) =>
      if decide (q = queueID) then returnValueData out else None
  | _, _ => None
  end.

Definition dequeued (queueID : Z) (b : baseHost) (tr : list call) : list bytes :=
  omap (dequeued_payload queueID) (events b tr).

(** A list of integers that strictly increases from left to right. *)
Fixpoint strictly_increasing (l : list Z) : Prop :=
  match l with
  | [] => True
  | x :: l' =>
      match l' with
      | [] => True
      | y :: _ => x < y ∧ strictly_increasing l'
      end
  end.

(** ** Invariants of the queue registry *)

(** The IDs in use are exactly [0 .. len(b.queues) - 1]. *)
Definition queues_dense (b : baseHost) : Prop :=
  ∀ z, is_Some (queues b !! z) ↔ 0 ≤ z < Z.of_nat (size (queues b)).

(** Every registered name leads to a queue, and every queue has a name. *)
Definition names_match_queues (b : baseHost) : Prop :=
  (∀ name id, queueNameID b !! name = Some id → is_Some (queues b !! id)) ∧
  (∀ id, is_Some (queues b !! id) → ∃ name, queueNameID b !! name = Some id).

(** ** The CAS counter of a key *)

(** [n] successive compare-and-swap writes from the stored CAS [s]: each
    passes the CAS that is stored and stores the next one. *)
Fixpoint cas_chain (s : Z) (n : nat) : list (Z * Z) :=
  match n with
  | O => []
  | S n' => (s, uint32 (s + 1)) :: cas_chain (uint32 (s + 1)) n'
  end.

(** ** Further observations on a sequence of calls *)

(** The call returned, with [StatusOK]. *)
Definition outcome_ok {A} (o : outcome A) : bool :=
  match o with
  | Returned StatusOK _ => true
  | _ => false
  end.

Definition succeeded (r : response) : bool :=
  match r with
  | RespStatus o => outcome_ok o
  | RespID o => outcome_ok o
  | RespBuffer o => outcome_ok o
  | RespSharedData o => outcome_ok o
  end.

(** The part of the host a call works on. *)
Inductive component : Set :=
| LogStore
| TickController
| QueueRegistry
| SharedDataStore
| MetricsRegistry.

Definition call_component (c : call) : component :=
  match c with
  | CallLog _ _ => LogStore
  | CallSetTickPeriod _ => TickController
  | CallRegisterSharedQueue _
  | CallDequeueSharedQueue _
  | CallEnqueueSharedQueue _ _ => QueueRegistry
  | CallGetSharedData _
  | CallSetSharedData _ _ _ => SharedDataStore
  | CallDefineMetric _ _
  | CallIncrementMetric _ _
  | CallRecordMetric _ _
  | CallGetMetric _ => MetricsRegistry
  end.

(** Payloads accepted by the enqueues on [queueID]. *)
Definition enqueued_payload (queueID : Z) (e : event) : option bytes :=
  match ev_call e, ev_resp e with
  | CallEnqueueSharedQueue q v, RespStatus (Returned StatusOK _) =>
      if decide (q = queueID) then Some v else None
  | _, _ => None
  end.

Definition enqueued (queueID : Z) (b : baseHost) (tr : list call) : list bytes :=
  omap (enqueued_payload queueID) (events b tr).

(** The periods passed to [ProxySetTickPeriodMilliseconds], in call order. *)
Definition tick_request (c : call) : option Z :=
  match c with
  | CallSetTickPeriod p => Some p
  | _ => None
  end.

Definition tick_requests (tr : list call) : list Z := omap tick_request tr.

(** The ID answered by a call of [ProxyDefineMetric]. *)
Definition defined_id (e : event) : option Z :=
  match ev_call e, ev_resp e with
  | CallDefineMetric _ _, RespID (Returned StatusOK (Some id)) => Some id
  | _, _ => None
  end.

Definition defined_name (c : call) : option string :=
  match c with
  | CallDefineMetric _ n => Some n
  | _ => None
  end.

(** IDs answered by the calls of [ProxyDefineMetric], in call order. *)
Definition define_ids (b : baseHost) (tr : list call) : list Z :=
  omap defined_id (events b tr).

(** Names passed to [ProxyDefineMetric], in call order. *)
Definition define_names (tr : list call) : list string :=
  omap defined_name tr.

(** An accepted write to [key]: the payload and the [expectedCas] passed. *)
Definition accepted_payload (key : string) (e : event) : option (bytes * Z) :=
  match ev_call e, ev_resp e with
  | CallSetSharedData k v c, RespStatus (Returned StatusOK _) =>
      if decide (k = key) then Some (v, c) else None
  | _, _ => None
  end.

Definition accepted_payloads (key : string) (b : baseHost) (tr : list call)
  : list (bytes * Z) :=
  omap (accepted_payload key) (events b tr).

(** ** Invariants of the registries, below 2^32 entries *)

(** While at most 2^32 queue names are registered: there are as many
    queues as names, a name's ID is below that number, and two names do
    not share an ID. *)
Definition queue_names_distinct (b : baseHost) : Prop :=
  Z.of_nat (size (queueNameID b)) ≤ 2 ^ 32 →
  size (queues b) = size (queueNameID b) ∧
  (∀ n id, queueNameID b !! n = Some id →
           0 ≤ id < Z.of_nat (size (queueNameID b))) ∧
  (∀ n1 n2 id, queueNameID b !! n1 = Some id →
               queueNameID b !! n2 = Some id → n1 = n2).

(** Every defined metric name leads to a value and a kind. *)
Definition metrics_defined (b : baseHost) : Prop :=
  ∀ name id, metricNameToID b !! name = Some id →
             is_Some (metricIDToValue b !! id) ∧ is_Some (metricIDToType b !! id).

(** While at most 2^32 metric names are defined: the IDs with a value, and
    those with a kind, are [0 .. len(b.metricNameToID) - 1], a name's ID
    is among them, and two names do not share an ID. *)
Definition metrics_dense (b : baseHost) : Prop :=
  Z.of_nat (size (metricNameToID b)) ≤ 2 ^ 32 →
  (∀ z, is_Some (metricIDToValue b !! z)
        ↔ 0 ≤ z < Z.of_nat (size (metricNameToID b))) ∧
  (∀ z, is_Some (metricIDToType b !! z)
        ↔ 0 ≤ z < Z.of_nat (size (metricNameToID b))) ∧
  (∀ n id, metricNameToID b !! n = Some id →
           0 ≤ id < Z.of_nat (size (metricNameToID b))) ∧
  (∀ n1 n2 id, metricNameToID b !! n1 = Some id →
               metricNameToID b !! n2 = Some id → n1 = n2).

(** * Properties *)

(** ** Machine arithmetic *)

Lemma uint32_range (z : Z) : 0 ≤ uint32 z < 2 ^ 32.
Proof. unfold uint32. apply Z.mod_pos_bound. lia. Qed.

Lemma uint32_small (z : Z) : 0 ≤ z < 2 ^ 32 → uint32 z = z.
Proof. intros H. unfold uint32. by apply Z.mod_small. Qed.

Lemma uint32_succ_uint32 (z k : Z) : uint32 (uint32 z + k) = uint32 (z + k).
Proof. unfold uint32. by rewrite Z.add_mod_idemp_l. Qed.

Lemma uint64_add_offset (val offset : Z) :
  uint64 (val + uint64 offset) = (val + offset) mod 2 ^ 64.
Proof. unfold uint64. by rewrite Z.add_mod_idemp_r. Qed.

Lemma uint64_idemp (z k : Z) : uint64 (uint64 z + k) = uint64 (z + k).
Proof. unfold uint64. by rewrite Z.add_mod_idemp_l. Qed.

(** ** Shared data: one call *)

(** On an existing key the two assignments through the pointer amount to
    storing the new cell. *)
Lemma alter_cas_then_data (m : gmap string sharedData) key prev value c :
  m !! key = Some prev →
  alter (λ e, mkSharedData value (cas e)) key
        (alter (λ e, mkSharedData (data e) c) key m)
  = <[key := mkSharedData value c]> m.
Proof.
  intros Hk. apply map_eq. intros k.
  destruct (decide (k = key)) as [->|Hne].
  - by rewrite lookup_insert_eq, !lookup_alter_eq, Hk.
  - by rewrite lookup_insert_ne, !lookup_alter_ne.
Qed.

Lemma ProxySetSharedData_absent b key value c :
  sharedDataKVS b !! key = None →
  ProxySetSharedData b key value c =
    (Returned StatusOK (),
     set_sharedDataKVS
       (<[key := mkSharedData value (uint32 (c + 1))]> (sharedDataKVS b)) b).
Proof. intros H. unfold ProxySetSharedData. by rewrite H. Qed.

Lemma ProxySetSharedData_mismatch b key value c prev :
  sharedDataKVS b !! key = Some prev → cas prev ≠ c →
  ProxySetSharedData b key value c = (Returned StatusCasMismatch (), b).
Proof.
  intros H Hne. unfold ProxySetSharedData. rewrite H.
  by destruct (decide (cas prev ≠ c)).
Qed.

Lemma ProxySetSharedData_match b key value c prev :
  sharedDataKVS b !! key = Some prev → cas prev = c →
  ProxySetSharedData b key value c =
    (Returned StatusOK (),
     set_sharedDataKVS
       (<[key := mkSharedData value (uint32 (c + 1))]> (sharedDataKVS b)) b).
Proof.
  intros H Heq. unfold ProxySetSharedData. rewrite H.
  destruct (decide (cas prev ≠ c)) as [Hne|_]; [done|].
  by rewrite (alter_cas_then_data _ _ prev).
Qed.

(** C2.  A write to a key that is not in the store returns [StatusOK]
    whatever [expectedCas] is (nothing is compared), and creates the entry
    with the given payload and the CAS [expectedCas + 1], the sum being
    that of [uint32]; the other keys and the other components of the host
    are as before. *)
Theorem ProxySetSharedData_creates (b : baseHost) (key : string)
    (value : bytes) (expectedCas : Z) :
  sharedDataKVS b !! key = None →
  ∃ b',
    ProxySetSharedData b key value expectedCas = (Returned StatusOK (), b') ∧
    sharedDataKVS b' !! key = Some (mkSharedData value (uint32 (expectedCas + 1))) ∧
    (0 ≤ expectedCas < 2 ^ 32 - 1 →
     sharedDataKVS b' !! key = Some (mkSharedData value (expectedCas + 1))) ∧
    (∀ k, k ≠ key → sharedDataKVS b' !! k = sharedDataKVS b !! k) ∧
    b' = set_sharedDataKVS (sharedDataKVS b') b.
Proof.
  intros Habs. eexists. split; [by apply ProxySetSharedData_absent|].
  simpl. rewrite lookup_insert_eq. split_and!; [done| |..|done].
  - intros Hr. by rewrite uint32_small by lia.
  - intros k Hk. by rewrite lookup_insert_ne.
Qed.

Lemma ProxySetSharedData_creates_witness :
  ∃ b',
    ProxySetSharedData (newBaseHost 6) "k" [] 4294967295
      = (Returned StatusOK (), b') ∧
    sharedDataKVS b' !! "k" = Some (mkSharedData [] 0).
Proof.
  destruct (ProxySetSharedData_creates (newBaseHost 6) "k" [] 4294967295)
    as (b' & Hrun & Hget & _); [reflexivity|].
  exists b'. split; [exact Hrun | exact Hget].
Defined.

(** C3.  A write to an existing key whose [expectedCas] differs from the
    stored CAS returns [StatusCasMismatch] and leaves the host, so the
    stored payload and CAS, as it was; with [expectedCas] equal to the
    stored CAS it returns [StatusOK], stores the payload and the CAS
    becomes [expectedCas + 1] (in [uint32]). *)
Theorem ProxySetSharedData_compare_and_swap (b : baseHost) (key : string)
    (value : bytes) (expectedCas : Z) (prev : sharedData) :
  sharedDataKVS b !! key = Some prev →
  (cas prev ≠ expectedCas →
     ProxySetSharedData b key value expectedCas = (Returned StatusCasMismatch (), b)) ∧
  (cas prev = expectedCas →
     ∃ b',
       ProxySetSharedData b key value expectedCas = (Returned StatusOK (), b') ∧
       sharedDataKVS b' !! key
         = Some (mkSharedData value (uint32 (expectedCas + 1))) ∧
       (0 ≤ expectedCas < 2 ^ 32 - 1 →
        sharedDataKVS b' !! key = Some (mkSharedData value (expectedCas + 1))) ∧
       (∀ k, k ≠ key → sharedDataKVS b' !! k = sharedDataKVS b !! k) ∧
       b' = set_sharedDataKVS (sharedDataKVS b') b).
Proof.
  intros Hk. split.
  - intros Hne. by apply (ProxySetSharedData_mismatch _ _ _ _ prev).
  - intros Heq. eexists.
    split; [by apply (ProxySetSharedData_match _ _ _ _ prev)|].
    simpl. rewrite lookup_insert_eq. split_and!; [done| |..|done].
    + intros Hr. by rewrite uint32_small by lia.
    + intros k Hne. by rewrite lookup_insert_ne.
Qed.

Lemma ProxySetSharedData_compare_and_swap_witness :
  let b := (ProxySetSharedData (newBaseHost 6) "k" [Byte.x01] 0).2 in
  ProxySetSharedData b "k" [Byte.x02] 7 = (Returned StatusCasMismatch (), b) ∧
  ∃ b',
    ProxySetSharedData b "k" [Byte.x02] 1 = (Returned StatusOK (), b') ∧
    sharedDataKVS b' !! "k" = Some (mkSharedData [Byte.x02] 2).
Proof.
  intros b. split.
  - apply (ProxySetSharedData_compare_and_swap b "k" [Byte.x02] 7
             (mkSharedData [Byte.x01] 1)); [reflexivity | discriminate].
  - destruct (ProxySetSharedData_compare_and_swap b "k" [Byte.x02] 1
                (mkSharedData [Byte.x01] 1)) as [_ Hok]; [reflexivity|].
    destruct Hok as (b' & Hrun & Hget & _); [reflexivity|].
    exists b'. split; [exact Hrun | exact Hget].
Defined.

(** ** Queues: one call *)

Lemma ProxyEnqueueSharedQueue_unregistered b id v :
  queues b !! id = None →
  ProxyEnqueueSharedQueue b id v = (Returned StatusNotFound (), b).
Proof. intros H. unfold ProxyEnqueueSharedQueue. by rewrite H. Qed.

Lemma ProxyEnqueueSharedQueue_registered b id v q :
  queues b !! id = Some q →
  ProxyEnqueueSharedQueue b id v =
    (Returned StatusOK (), set_queues (<[id := q ++ [v]]> (queues b)) b).
Proof. intros H. unfold ProxyEnqueueSharedQueue. by rewrite H. Qed.

Lemma ProxyDequeueSharedQueue_unregistered b id :
  queues b !! id = None →
  ProxyDequeueSharedQueue b id = (Returned StatusNotFound noBuffer, b).
Proof. intros H. unfold ProxyDequeueSharedQueue. by rewrite H. Qed.

Lemma ProxyDequeueSharedQueue_empty b id :
  queues b !! id = Some [] →
  ProxyDequeueSharedQueue b id = (Returned StatusEmpty noBuffer, b).
Proof. intros H. unfold ProxyDequeueSharedQueue. by rewrite H. Qed.

Lemma ProxyDequeueSharedQueue_head b id d rest :
  queues b !! id = Some (d :: rest) → d ≠ [] →
  ProxyDequeueSharedQueue b id =
    (Returned StatusOK (mkBufferOut (Some d) (Some (Z.of_nat (length d)))),
     set_queues (<[id := rest]> (queues b)) b).
Proof.
  intros H Hd. unfold ProxyDequeueSharedQueue. rewrite H. by destruct d.
Qed.

Lemma ProxyDequeueSharedQueue_head_empty b id rest :
  queues b !! id = Some ([] :: rest) →
  ProxyDequeueSharedQueue b id = (Panicked noBuffer, b).
Proof. intros H. unfold ProxyDequeueSharedQueue. by rewrite H. Qed.

(** C6.  [GetQueueSize] is the number of pending entries of a registered
    queue, and 0 rather than an error for an ID that is not registered,
    for which [ProxyEnqueueSharedQueue] and [ProxyDequeueSharedQueue]
    return [StatusNotFound]. *)
Theorem GetQueueSize_unregistered_is_zero (b : baseHost) (queueID : Z) :
  (∀ q, queues b !! queueID = Some q →
        GetQueueSize b queueID = Z.of_nat (length q)) ∧
  (queues b !! queueID = None →
     GetQueueSize b queueID = 0 ∧
     (∀ v, ProxyEnqueueSharedQueue b queueID v = (Returned StatusNotFound (), b)) ∧
     ProxyDequeueSharedQueue b queueID = (Returned StatusNotFound noBuffer, b)).
Proof.
  unfold GetQueueSize. split.
  - intros q Hq. by rewrite Hq.
  - intros Hq. split_and!.
    + by rewrite Hq.
    + intros v. by apply ProxyEnqueueSharedQueue_unregistered.
    + by apply ProxyDequeueSharedQueue_unregistered.
Qed.

Lemma GetQueueSize_unregistered_is_zero_witness :
  let b := run (newBaseHost 6)
             [CallRegisterSharedQueue "q1";
              CallEnqueueSharedQueue 0 [Byte.x41];
              CallEnqueueSharedQueue 0 [Byte.x42]] in
  GetQueueSize b 0 = 2 ∧
  GetQueueSize b 1 = 0 ∧
  ProxyEnqueueSharedQueue b 1 [Byte.x41] = (Returned StatusNotFound (), b) ∧
  ProxyDequeueSharedQueue b 1 = (Returned StatusNotFound noBuffer, b).
Proof.
  intros b.
  destruct (GetQueueSize_unregistered_is_zero b 0) as [Hreg _].
  destruct (GetQueueSize_unregistered_is_zero b 1) as [_ Hun].
  destruct Hun as (Hz & Henq & Hdeq); [reflexivity|].
  split_and!; [| exact Hz | exact (Henq _) | exact Hdeq].
  apply (Hreg [[Byte.x41]; [Byte.x42]]). reflexivity.
Defined.

(** ** Metrics: one call *)

(** The value of a metric after a run of increments. *)
Lemma run_increments h metricID d ds v :
  metricIDToValue h !! metricID = Some v →
  metricIDToValue (run h (CallIncrementMetric metricID <$> d :: ds)) !! metricID
    = Some ((v + foldr Z.add 0 (d :: ds)) mod 2 ^ 64).
Proof.
  revert h d v. induction ds as [|d' ds IH]; intros h d v Hv.
  - simpl. unfold answer, ProxyIncrementMetric. rewrite Hv. simpl.
    by rewrite lookup_insert_eq, uint64_add_offset, Z.add_0_r.
  - change (run h (CallIncrementMetric metricID <$> d :: d' :: ds))
      with (run (step h (CallIncrementMetric metricID d)).2
                (CallIncrementMetric metricID <$> d' :: ds)).
    rewrite (IH _ d' (uint64 (v + uint64 d))).
    + rewrite uint64_add_offset. fold (uint64 (v + d)).
      change ((uint64 (v + d) + foldr Z.add 0 (d' :: ds)) mod 2 ^ 64)
        with (uint64 (uint64 (v + d) + foldr Z.add 0 (d' :: ds))).
      rewrite uint64_idemp. unfold uint64. do 2 f_equal. simpl. lia.
    + simpl. unfold answer, ProxyIncrementMetric. rewrite Hv. simpl.
      by rewrite lookup_insert_eq.
Qed.

(** C7.  For a defined metric, [ProxyIncrementMetric] returns [StatusOK]
    for every signed offset and the value read back is the sum modulo
    2^64, also after several increments; [ProxyRecordMetric] stores the
    given value whatever the previous one was; for an ID that is not
    defined both return [StatusBadArgument] and leave the host as it was. *)
Theorem metric_increment_wraps_record_overwrites (b : baseHost) (metricID : Z) :
  (∀ val, metricIDToValue b !! metricID = Some val →
     (∀ offset, ∃ b',
        ProxyIncrementMetric b metricID offset = (Returned StatusOK (), b') ∧
        ProxyGetMetric b' metricID
          = (Returned StatusOK (Some ((val + offset) mod 2 ^ 64)), b') ∧
        ∀ i, i ≠ metricID → metricIDToValue b' !! i = metricIDToValue b !! i) ∧
     (∀ offset offsets,
        let b' := run b (CallIncrementMetric metricID <$> offset :: offsets) in
        ProxyGetMetric b' metricID
          = (Returned StatusOK
               (Some ((val + foldr Z.add 0 (offset :: offsets)) mod 2 ^ 64)), b')) ∧
     (∀ value, ∃ b',
        ProxyRecordMetric b metricID value = (Returned StatusOK (), b') ∧
        ProxyGetMetric b' metricID = (Returned StatusOK (Some value), b') ∧
        ∀ i, i ≠ metricID → metricIDToValue b' !! i = metricIDToValue b !! i)) ∧
  (metricIDToValue b !! metricID = None →
     (∀ offset,
        ProxyIncrementMetric b metricID offset = (Returned StatusBadArgument (), b)) ∧
     (∀ value,
        ProxyRecordMetric b metricID value = (Returned StatusBadArgument (), b))).
Proof.
  split.
  - intros val Hval. split_and!.
    + intros offset. eexists. unfold ProxyIncrementMetric, ProxyGetMetric.
      rewrite Hval. split; [reflexivity|]. simpl.
      rewrite lookup_insert_eq, uint64_add_offset. split; [done|].
      intros i Hi. by rewrite lookup_insert_ne.
    + intros offset offsets b'. unfold ProxyGetMetric. subst b'.
      by rewrite (run_increments _ _ _ _ val).
    + intros value. eexists. unfold ProxyRecordMetric, ProxyGetMetric.
      rewrite Hval. split; [reflexivity|]. simpl.
      rewrite lookup_insert_eq. split; [done|].
      intros i Hi. by rewrite lookup_insert_ne.
  - intros Hnone. unfold ProxyIncrementMetric, ProxyRecordMetric.
    by rewrite Hnone.
Qed.

Lemma metric_increment_wraps_record_overwrites_witness :
  let b := (ProxyDefineMetric (newBaseHost 6) MetricTypeCounter "requests").2 in
  (∃ b', ProxyIncrementMetric b 0 (-1) = (Returned StatusOK (), b') ∧
         ProxyGetMetric b' 0 = (Returned StatusOK (Some 18446744073709551615), b')) ∧
  (∃ b', ProxyRecordMetric b 0 5 = (Returned StatusOK (), b') ∧
         ProxyGetMetric b' 0 = (Returned StatusOK (Some 5), b')) ∧
  ProxyIncrementMetric b 9 1 = (Returned StatusBadArgument (), b) ∧
  ProxyRecordMetric b 9 1 = (Returned StatusBadArgument (), b).
Proof.
  intros b.
  destruct (metric_increment_wraps_record_overwrites b 0) as [Hdef _].
  destruct (metric_increment_wraps_record_overwrites b 9) as [_ Hundef].
  destruct (Hdef 0) as (Hinc & _ & Hrec); [reflexivity|].
  destruct Hundef as [Hi Hr]; [reflexivity|].
  split_and!; [| | exact (Hi 1) | exact (Hr 1)].
  - destruct (Hinc (-1)) as (b' & H1 & H2 & _). exists b'. split; [exact H1 | exact H2].
  - destruct (Hrec 5) as (b' & H1 & H2 & _). exists b'. split; [exact H1 | exact H2].
Defined.

(** C8.  [ProxyDefineMetric] with a name that is already defined answers
    the existing ID and leaves the host as it was: the value, the stored
    kind (whatever kind is passed now) and the names are untouched and no
    ID is allocated.  With a new name it answers the number of names
    defined so far (converted to [uint32]), stores the kind and sets the
    value to 0. *)
Theorem ProxyDefineMetric_existing_or_new (b : baseHost)
    (metricType : MetricType) (name : string) :
  (∀ id, metricNameToID b !! name = Some id →
     ProxyDefineMetric b metricType name = (Returned StatusOK (Some id), b)) ∧
  (metricNameToID b !! name = None →
     ∃ id b',
       ProxyDefineMetric b metricType name = (Returned StatusOK (Some id), b') ∧
       id = uint32 (Z.of_nat (size (metricNameToID b))) ∧
       (Z.of_nat (size (metricNameToID b)) < 2 ^ 32 →
        id = Z.of_nat (size (metricNameToID b))) ∧
       metricNameToID b' !! name = Some id ∧
       size (metricNameToID b') = S (size (metricNameToID b)) ∧
       metricIDToValue b' !! id = Some 0 ∧
       metricIDToType b' !! id = Some metricType).
Proof.
  unfold ProxyDefineMetric. split.
  - intros id Hid. by rewrite Hid.
  - intros Hnone. rewrite Hnone. do 2 eexists. split; [reflexivity|].
    simpl. split_and!; [done| | | | |].
    + intros Hlt. apply uint32_small. lia.
    + by rewrite lookup_insert_eq.
    + by apply map_size_insert_None.
    + by rewrite lookup_insert_eq.
    + by rewrite lookup_insert_eq.
Qed.

Lemma ProxyDefineMetric_existing_or_new_witness :
  let b0 := (ProxyDefineMetric (newBaseHost 6) MetricTypeCounter "requests").2 in
  let b := (ProxyIncrementMetric b0 0 41).2 in
  ProxyDefineMetric b MetricTypeGauge "requests" = (Returned StatusOK (Some 0), b) ∧
  ∃ b', ProxyDefineMetric b MetricTypeGauge "latency"
          = (Returned StatusOK (Some 1), b') ∧
        metricIDToValue b' !! 1 = Some 0 ∧
        metricIDToType b' !! 1 = Some MetricTypeGauge.
Proof.
  intros b0 b. split.
  - apply (ProxyDefineMetric_existing_or_new b MetricTypeGauge "requests").
    reflexivity.
  - destruct (ProxyDefineMetric_existing_or_new b MetricTypeGauge "latency")
      as [_ Hnew].
    destruct Hnew as (id & b' & Hrun & Hid & _ & _ & _ & Hval & Hty);
      [reflexivity|].
    exists b'. change 1 with (uint32 (Z.of_nat (size (metricNameToID b)))).
    rewrite <- Hid. split_and!; [exact Hrun | exact Hval | exact Hty].
Defined.

(** ** Payloads of length 0 *)

Lemma ProxyGetSharedData_nonempty b key value :
  sharedDataKVS b !! key = Some value → data value ≠ [] →
  ProxyGetSharedData b key =
    (Returned StatusOK
       (mkSharedDataOut (Some (data value))
          (Some (Z.of_nat (length (data value)))) (Some (cas value))), b).
Proof.
  intros H Hd. unfold ProxyGetSharedData. rewrite H. by destruct (data value).
Qed.

Lemma ProxyGetSharedData_empty b key value :
  sharedDataKVS b !! key = Some value → data value = [] →
  ProxyGetSharedData b key = (Panicked (mkSharedDataOut None (Some 0) None), b).
Proof. intros H Hd. unfold ProxyGetSharedData. by rewrite H, Hd. Qed.

(** C10.  When the payload stored for a key has length 0,
    [ProxyGetSharedData] panics instead of returning, having written only
    the size; when the payload at the head of a queue has length 0,
    [ProxyDequeueSharedQueue] panics and the payload stays at the head.
    With a payload that is not empty both return [StatusOK] and the
    payload.  Both situations arise from a new host. *)
Theorem empty_payload_panics (b : baseHost) :
  (∀ key value, sharedDataKVS b !! key = Some value →
     (data value = [] →
        ProxyGetSharedData b key
          = (Panicked (mkSharedDataOut None (Some 0) None), b)) ∧
     (data value ≠ [] →
        ProxyGetSharedData b key
          = (Returned StatusOK
               (mkSharedDataOut (Some (data value))
                  (Some (Z.of_nat (length (data value)))) (Some (cas value))), b))) ∧
  (∀ queueID head rest, queues b !! queueID = Some (head :: rest) →
     (head = [] → ProxyDequeueSharedQueue b queueID = (Panicked noBuffer, b)) ∧
     (head ≠ [] →
        ProxyDequeueSharedQueue b queueID
          = (Returned StatusOK
               (mkBufferOut (Some head) (Some (Z.of_nat (length head)))),
             set_queues (<[queueID := rest]> (queues b)) b))) ∧
  (∀ LogLevelMax key c,
     (ProxyGetSharedData
        (ProxySetSharedData (newBaseHost LogLevelMax) key [] c).2 key).1
       = Panicked (mkSharedDataOut None (Some 0) None)) ∧
  (∀ LogLevelMax name,
     (ProxyDequeueSharedQueue
        (run (newBaseHost LogLevelMax)
           [CallRegisterSharedQueue name; CallEnqueueSharedQueue 0 []]) 0).1
       = Panicked noBuffer).
Proof.
  split_and!.
  - intros key value Hk. split; intros Hd.
    + by apply (ProxyGetSharedData_empty _ _ value).
    + by apply ProxyGetSharedData_nonempty.
  - intros queueID head rest Hq. split; intros Hd.
    + subst head. by apply (ProxyDequeueSharedQueue_head_empty _ _ rest).
    + by apply ProxyDequeueSharedQueue_head.
  - intros LogLevelMax key c. unfold ProxySetSharedData. simpl.
    rewrite lookup_empty. simpl. unfold ProxyGetSharedData. simpl.
    by rewrite lookup_insert_eq.
  - intros LogLevelMax name. simpl. unfold answer. simpl.
    unfold ProxyRegisterSharedQueue. simpl. rewrite lookup_empty. simpl.
    unfold ProxyEnqueueSharedQueue. simpl.
    rewrite map_size_empty. change (uint32 (Z.of_nat 0)) with 0.
    rewrite lookup_insert_eq. simpl.
    unfold ProxyDequeueSharedQueue. simpl. by rewrite lookup_insert_eq.
Qed.

Lemma empty_payload_panics_witness :
  let b := run (newBaseHost 6)
             [CallSetSharedData "k" [] 0;
              CallRegisterSharedQueue "q";
              CallEnqueueSharedQueue 0 []] in
  ProxyGetSharedData b "k" = (Panicked (mkSharedDataOut None (Some 0) None), b) ∧
  ProxyDequeueSharedQueue b 0 = (Panicked noBuffer, b).
Proof.
  intros b. destruct (empty_payload_panics b) as (Hget & Hdeq & _). split.
  - apply (Hget "k" (mkSharedData [] 1)); reflexivity.
  - apply (Hdeq 0 [] []); reflexivity.
Defined.

(** ** Sequences of calls: what a call leaves alone *)

Ltac unfold_step :=
  unfold step, answer, ProxyLog, ProxySetTickPeriodMilliseconds,
    ProxyRegisterSharedQueue, ProxyDequeueSharedQueue, ProxyEnqueueSharedQueue,
    ProxyGetSharedData, ProxySetSharedData, ProxyDefineMetric,
    ProxyIncrementMetric, ProxyRecordMetric, ProxyGetMetric.

Ltac step_cases c :=
  destruct c; unfold_step; repeat case_match; simpl in *; simplify_eq; try done.

Lemma run_cons b c tr : run b (c :: tr) = run (step b c).2 tr.
Proof. reflexivity. Qed.

Lemma run_app b tr1 tr2 : run b (tr1 ++ tr2) = run (run b tr1) tr2.
Proof. unfold run. by rewrite foldl_app. Qed.

Lemma events_app b tr1 tr2 :
  events b (tr1 ++ tr2) = events b tr1 ++ events (run b tr1) tr2.
Proof.
  revert b. induction tr1 as [|c tr1 IH]; intros b; [done|].
  simpl. by rewrite IH.
Qed.

Lemma step_logs b c :
  (∀ l s, c ≠ CallLog l s) → logs (step b c).2 = logs b.
Proof. intros H. step_cases c. by destruct (H logLevel str). Qed.

Lemma step_sharedDataKVS b c :
  (∀ k v x, c ≠ CallSetSharedData k v x) →
  sharedDataKVS (step b c).2 = sharedDataKVS b.
Proof. intros H. step_cases c; by destruct (H key value cas_). Qed.

Lemma step_length_logs b c : length (logs (step b c).2) = length (logs b).
Proof. step_cases c. by rewrite length_insert. Qed.

Lemma run_wf_logs LogLevelMax b tr :
  wf_logs LogLevelMax b → wf_logs LogLevelMax (run b tr).
Proof.
  unfold wf_logs. revert b. induction tr as [|c tr IH]; intros b Hb; [done|].
  rewrite run_cons. apply IH. by rewrite step_length_logs.
Qed.

Lemma newBaseHost_wf_logs LogLevelMax : wf_logs LogLevelMax (newBaseHost LogLevelMax).
Proof. unfold wf_logs. simpl. by rewrite length_replicate. Qed.

Lemma reachable_wf_logs LogLevelMax b :
  reachable LogLevelMax b → wf_logs LogLevelMax b.
Proof. intros [tr ->]. apply run_wf_logs, newBaseHost_wf_logs. Qed.

(** ** The log store *)

Lemma GetLogs_in_range LogLevelMax b level :
  (level < LogLevelMax)%nat →
  GetLogs LogLevelMax b level = Some (default [] (logs b !! level)).
Proof. intros H. unfold GetLogs. case_decide; [lia | done]. Qed.

Lemma ProxyLog_in_range b level msg bucket :
  logs b !! level = Some bucket →
  ProxyLog b level msg =
    (Returned StatusOK (), set_logs (<[level := bucket ++ [msg]]> (logs b)) b).
Proof. intros H. unfold ProxyLog. by rewrite H. Qed.

Lemma ProxyLog_out_of_range b level msg :
  (length (logs b) ≤ level)%nat → ProxyLog b level msg = (Panicked (), b).
Proof.
  intros H. unfold ProxyLog. by rewrite (proj2 (lookup_ge_None _ _) H).
Qed.

(** The bucket of a level after a sequence of calls: what it held, then
    the messages logged at that level, in call order. *)
Lemma run_logs_bucket b tr level bucket :
  logs b !! level = Some bucket →
  logs (run b tr) !! level = Some (bucket ++ logged level b tr).
Proof.
  revert b bucket. induction tr as [|c tr IH]; intros b bucket Hb.
  - simpl. by rewrite app_nil_r.
  - rewrite run_cons. unfold logged. simpl.
    assert (Hc : (∃ l s, c = CallLog l s) ∨ (∀ l s, c ≠ CallLog l s))
      by (destruct c; [left; eauto | right; done ..]).
    destruct Hc as [(l & s & ->)|Hnl].
    + simpl. unfold answer, ProxyLog.
      destruct (logs b !! l) as [bl|] eqn:Hl; simpl.
      * destruct (decide (l = level)) as [->|Hne]; simpl.
        -- unfold logged_message. simpl. rewrite decide_True by done.
           rewrite (IH _ (bucket ++ [s])).
           ++ by rewrite <- app_assoc.
           ++ simpl. rewrite list_lookup_insert_eq by (by eapply lookup_lt_Some).
              congruence.
        -- unfold logged_message. simpl. rewrite decide_False by done.
           apply IH. simpl. by rewrite list_lookup_insert_ne.
      * by apply IH.
    + assert (Hm : logged_message level
                     (mkEvent b c (step b c).1 (step b c).2) = None).
      { unfold logged_message. simpl. destruct c; try done. by destruct (Hnl logLevel str). }
      rewrite Hm. apply IH. by rewrite step_logs.
Qed.

(** C9 (as amended).  On a host whose [logs] array has [LogLevelMax]
    buckets, [ProxyLog] at a level below [LogLevelMax] returns [StatusOK]
    and appends the message to the bucket of that level, leaving the other
    buckets alone; no check of the level is written, but a level at or
    above [LogLevelMax] indexes outside the array: the call panics and the
    host is unchanged.  After any sequence of calls a bucket holds what it
    held before followed by the messages logged at its level, in call
    order: nothing is removed. *)
Theorem ProxyLog_appends_within_array (LogLevelMax : nat) (b : baseHost) :
  wf_logs LogLevelMax b →
  (∀ level msg, (level < LogLevelMax)%nat →
     ∃ bucket b',
       GetLogs LogLevelMax b level = Some bucket ∧
       ProxyLog b level msg = (Returned StatusOK (), b') ∧
       GetLogs LogLevelMax b' level = Some (bucket ++ [msg]) ∧
       ∀ l, l ≠ level → GetLogs LogLevelMax b' l = GetLogs LogLevelMax b l) ∧
  (∀ level msg, (LogLevelMax ≤ level)%nat →
     ProxyLog b level msg = (Panicked (), b)) ∧
  (∀ level tr, (level < LogLevelMax)%nat →
     ∃ bucket,
       GetLogs LogLevelMax b level = Some bucket ∧
       GetLogs LogLevelMax (run b tr) level = Some (bucket ++ logged level b tr)).
Proof.
  intros Hwf. unfold wf_logs in Hwf. split_and!.
  - intros level msg Hlt.
    destruct (lookup_lt_is_Some_2 (logs b) level) as [bucket Hb]; [lia|].
    exists bucket. eexists. split_and!.
    + rewrite GetLogs_in_range by done. by rewrite Hb.
    + by apply ProxyLog_in_range.
    + rewrite GetLogs_in_range by done. simpl.
      by rewrite list_lookup_insert_eq by lia.
    + intros l Hl. unfold GetLogs. simpl. case_decide; [done|].
      by rewrite list_lookup_insert_ne.
  - intros level msg Hge. apply ProxyLog_out_of_range. lia.
  - intros level tr Hlt.
    destruct (lookup_lt_is_Some_2 (logs b) level) as [bucket Hb]; [lia|].
    exists bucket. rewrite !GetLogs_in_range by done.
    by rewrite (run_logs_bucket _ _ _ bucket), Hb.
Qed.

Lemma ProxyLog_appends_within_array_witness :
  let b := newBaseHost 6 in
  ProxyLog b 6 "lost" = (Panicked (), b) ∧
  ∃ bucket,
    GetLogs 6 b 2 = Some bucket ∧
    GetLogs 6 (run b [CallLog 2 "a"; CallLog 6 "lost"; CallLog 2 "b"]) 2
      = Some (bucket ++ ["a"; "b"]).
Proof.
  intros b.
  destruct (ProxyLog_appends_within_array 6 b) as (_ & Hpanic & Hseq);
    [reflexivity|].
  split.
  - apply Hpanic. lia.
  - destruct (Hseq 2%nat [CallLog 2 "a"; CallLog 6 "lost"; CallLog 2 "b"])
      as (bucket & H1 & H2); [lia|].
    exists bucket. split; [exact H1 | exact H2].
Defined.

(** C9 as stated does not hold: whatever the number of log levels is,
    [ProxyLog] on a new host at the level [LogLevelMax], the first one
    outside the array, does not return [StatusOK]. *)
Lemma ProxyLog_not_total :
  ¬ ∃ LogLevelMax : nat,
      (ProxyLog (newBaseHost LogLevelMax) LogLevelMax "m").1
        = Returned StatusOK ().
Proof.
  intros [LogLevelMax H].
  rewrite ProxyLog_out_of_range in H; [done|].
  simpl. by rewrite length_replicate.
Qed.

(** ** The queue registry over sequences of calls *)

Lemma step_queueNameID b c :
  (∀ n, c ≠ CallRegisterSharedQueue n) →
  queueNameID (step b c).2 = queueNameID b.
Proof. intros H. step_cases c. by destruct (H name). Qed.

Lemma insert_present_size {V} (m : gmap Z V) k v :
  is_Some (m !! k) → size (<[k := v]> m) = size m.
Proof. intros [x Hx]. by apply map_size_insert_Some. Qed.

Lemma insert_present_is_Some {V} (m : gmap Z V) k v z :
  is_Some (m !! k) → is_Some (<[k := v]> m !! z) ↔ is_Some (m !! z).
Proof.
  intros Hk. rewrite lookup_insert_is_Some.
  destruct (decide (k = z)) as [->|Hne]; [|tauto].
  split; [done | by left].
Qed.

Lemma step_queues_size b c :
  (∀ n, c ≠ CallRegisterSharedQueue n) →
  size (queues (step b c).2) = size (queues b).
Proof.
  intros H. step_cases c; try (by destruct (H name));
    by apply insert_present_size.
Qed.

Lemma step_queues_is_Some b c z :
  (∀ n, c ≠ CallRegisterSharedQueue n) →
  is_Some (queues (step b c).2 !! z) ↔ is_Some (queues b !! z).
Proof.
  intros H. step_cases c; try (by destruct (H name));
    by apply insert_present_is_Some.
Qed.

Lemma call_register_or_not c :
  (∃ n, c = CallRegisterSharedQueue n) ∨ (∀ n, c ≠ CallRegisterSharedQueue n).
Proof. destruct c; [right; done | right; done | left; eauto | right; done ..]. Qed.

(** A new name on a host with fewer than 2^32 queues: the ID is the
    number of queues, and it is not in use. *)
Lemma register_new_id b :
  queues_dense b → Z.of_nat (size (queues b)) < 2 ^ 32 →
  uint32 (Z.of_nat (size (queues b))) = Z.of_nat (size (queues b)) ∧
  queues b !! Z.of_nat (size (queues b)) = None.
Proof.
  intros Hd Hlt. split; [apply uint32_small; lia|].
  apply eq_None_not_Some. intros Hs. apply Hd in Hs. lia.
Qed.

Lemma ProxyRegisterSharedQueue_known b name id :
  queueNameID b !! name = Some id →
  ProxyRegisterSharedQueue b name = (Returned StatusOK (Some id), b).
Proof. intros H. unfold ProxyRegisterSharedQueue. by rewrite H. Qed.

Lemma ProxyRegisterSharedQueue_new b name :
  queueNameID b !! name = None →
  ProxyRegisterSharedQueue b name =
    let id := uint32 (Z.of_nat (size (queues b))) in
    (Returned StatusOK (Some id),
     set_queueNameID (<[name := id]> (queueNameID b))
       (set_queues (<[id := []]> (queues b)) b)).
Proof. intros H. unfold ProxyRegisterSharedQueue. by rewrite H. Qed.

Lemma step_queues_dense b c : queues_dense b → queues_dense (step b c).2.
Proof.
  intros Hd. destruct (call_register_or_not c) as [[n ->]|Hc].
  - simpl. unfold answer, ProxyRegisterSharedQueue.
    destruct (queueNameID b !! n) as [id|]; simpl; [done|].
    set (id := uint32 (Z.of_nat (size (queues b)))).
    pose proof (uint32_range (Z.of_nat (size (queues b)))) as Hr. fold id in Hr.
    assert (Hle : id ≤ Z.of_nat (size (queues b))).
    { unfold id, uint32. apply Z.mod_le; lia. }
    destruct (queues b !! id) as [q|] eqn:Hq.
    + intros z. unfold queues_dense in Hd. simpl.
      rewrite insert_present_is_Some, insert_present_size by eauto. apply Hd.
    + assert (Hid : id = Z.of_nat (size (queues b))).
      { destruct (decide (id < Z.of_nat (size (queues b)))) as [Hlt|]; [|lia].
        assert (Hs : is_Some (queues b !! id)) by (apply Hd; lia).
        rewrite Hq in Hs. by destruct Hs. }
      intros z. simpl. rewrite lookup_insert_is_Some, map_size_insert_None by done.
      unfold queues_dense in Hd. rewrite Hd. lia.
  - intros z. rewrite step_queues_is_Some, step_queues_size by done. apply Hd.
Qed.

Lemma run_queues_dense b tr : queues_dense b → queues_dense (run b tr).
Proof.
  revert b. induction tr as [|c tr IH]; intros b Hb; [done|].
  rewrite run_cons. by apply IH, step_queues_dense.
Qed.

Lemma newBaseHost_queues_dense LogLevelMax : queues_dense (newBaseHost LogLevelMax).
Proof.
  intros z. simpl. rewrite lookup_empty, map_size_empty. split.
  - by intros [? ?].
  - lia.
Qed.

Lemma step_names_match_queues b c :
  names_match_queues b → names_match_queues (step b c).2.
Proof.
  intros [Hn Hq]. destruct (call_register_or_not c) as [[n ->]|Hc].
  - simpl. unfold answer, ProxyRegisterSharedQueue.
    destruct (queueNameID b !! n) as [id|] eqn:Hname; simpl; [done|].
    set (id := uint32 (Z.of_nat (size (queues b)))). split; simpl.
    + intros name i. rewrite lookup_insert_Some, lookup_insert_is_Some.
      intros [[-> ->]|[Hne Hi]]; [by left|].
      destruct (decide (id = i)); [by left|]. right. eauto.
    + intros i. rewrite lookup_insert_is_Some. intros [->|[Hne Hi]].
      * exists n. by rewrite lookup_insert_eq.
      * destruct (Hq i Hi) as [name Hi']. exists name.
        rewrite lookup_insert_ne; [done|]. intros ->. congruence.
  - split.
    + intros name i. rewrite step_queueNameID, step_queues_is_Some by done. apply Hn.
    + intros i. rewrite step_queueNameID, step_queues_is_Some by done. apply Hq.
Qed.

Lemma step_queueNameID_persists b c name id :
  queueNameID b !! name = Some id →
  queueNameID (step b c).2 !! name = Some id.
Proof.
  intros H. destruct (call_register_or_not c) as [[n ->]|Hc].
  - simpl. unfold answer, ProxyRegisterSharedQueue.
    destruct (queueNameID b !! n) as [i|] eqn:Hn; simpl; [done|].
    rewrite lookup_insert_ne; [done|]. intros ->. congruence.
  - by rewrite step_queueNameID.
Qed.

Lemma run_queueNameID_persists b tr name id :
  queueNameID b !! name = Some id →
  queueNameID (run b tr) !! name = Some id.
Proof.
  revert b. induction tr as [|c tr IH]; intros b Hb; [done|].
  rewrite run_cons. by apply IH, step_queueNameID_persists.
Qed.

Lemma register_ids_cons b c tr :
  register_ids b (c :: tr) =
    match registered_id (mkEvent b c (step b c).1 (step b c).2) with
    | Some id => id :: register_ids (step b c).2 tr
    | None => register_ids (step b c).2 tr
    end.
Proof. reflexivity. Qed.

Lemma step_register_new b n :
  queueNameID b !! n = None →
  step b (CallRegisterSharedQueue n) =
    (RespID (Returned StatusOK (Some (uint32 (Z.of_nat (size (queues b)))))),
     set_queueNameID (<[n := uint32 (Z.of_nat (size (queues b)))]> (queueNameID b))
       (set_queues (<[uint32 (Z.of_nat (size (queues b))) := []]> (queues b)) b)).
Proof. intros H. simpl. by rewrite ProxyRegisterSharedQueue_new. Qed.

(** The IDs answered for pairwise distinct new names count up from the
    number of queues. *)
Lemma register_ids_from b tr :
  queues_dense b →
  NoDup (register_names tr) →
  (∀ n, n ∈ register_names tr → queueNameID b !! n = None) →
  Z.of_nat (size (queues b)) + Z.of_nat (length (register_names tr)) ≤ 2 ^ 32 →
  register_ids b tr
    = seqZ (Z.of_nat (size (queues b))) (Z.of_nat (length (register_names tr))).
Proof.
  revert b. induction tr as [|c tr IH]; intros b Hd Hnd Hnew Hbound; [done|].
  rewrite register_ids_cons.
  pose proof (step_queues_dense b c Hd) as Hd'.
  destruct (call_register_or_not c) as [[n ->]|Hc].
  - change (register_names (CallRegisterSharedQueue n :: tr))
      with (n :: register_names tr) in *.
    apply NoDup_cons in Hnd as [Hn Hnd]. simpl in Hbound.
    assert (Hnone : queueNameID b !! n = None) by (apply Hnew; left).
    destruct (register_new_id b Hd) as [Hid Hfree]; [lia|].
    rewrite step_register_new in * by done. rewrite Hid in *.
    unfold registered_id. cbn [ev_call ev_resp fst snd].
    cbn [fst snd] in Hd'.
    rewrite IH; [| done | done | |].
    + cbn [queues set_queueNameID set_queues length].
      rewrite map_size_insert_None by done.
      rewrite (seqZ_cons (Z.of_nat (size (queues b)))) by lia.
      do 2 f_equal; lia.
    + intros n' Hn'. cbn [queueNameID set_queueNameID set_queues].
      rewrite lookup_insert_ne.
      * apply Hnew. by right.
      * by intros ->.
    + cbn [queues set_queueNameID set_queues].
      rewrite map_size_insert_None by done. lia.
  - assert (Hnames : register_names (c :: tr) = register_names tr).
    { unfold register_names. simpl.
      destruct c; try done. by destruct (Hc name). }
    rewrite Hnames in *.
    assert (He : registered_id (mkEvent b c (step b c).1 (step b c).2) = None).
    { unfold registered_id. simpl. destruct c; try done. by destruct (Hc name). }
    rewrite He, IH.
    + by rewrite step_queues_size.
    + done.
    + done.
    + intros n Hn. rewrite step_queueNameID by done. by apply Hnew.
    + by rewrite step_queues_size.
Qed.

(** C5.  [ProxyRegisterSharedQueue] always returns [StatusOK] with an ID;
    once a name has been given an ID, every later call with that name,
    after any calls in between, answers the same ID and leaves the host as
    it is (no second queue).  On a host reached from a new one, a name
    that is not registered gets the number of queues registered so far as
    its ID, and one empty queue is created under it.  From a new host, the
    calls for N pairwise distinct names, interleaved with any other calls,
    answer 0, 1, ..., N-1 in call order.  (IDs are [uint32]: fewer than
    2^32 queues.) *)
Theorem ProxyRegisterSharedQueue_idempotent_sequential (LogLevelMax : nat) :
  (∀ b name, ∃ id b',
     ProxyRegisterSharedQueue b name = (Returned StatusOK (Some id), b') ∧
     ∀ tr, ProxyRegisterSharedQueue (run b' tr) name
             = (Returned StatusOK (Some id), run b' tr)) ∧
  (∀ b name,
     reachable LogLevelMax b →
     queueNameID b !! name = None →
     Z.of_nat (size (queues b)) < 2 ^ 32 →
     ∃ b',
       ProxyRegisterSharedQueue b name
         = (Returned StatusOK (Some (Z.of_nat (size (queues b)))), b') ∧
       queues b' !! Z.of_nat (size (queues b)) = Some [] ∧
       size (queues b') = S (size (queues b)) ∧
       ∀ id, id ≠ Z.of_nat (size (queues b)) → queues b' !! id = queues b !! id) ∧
  (∀ tr,
     NoDup (register_names tr) →
     Z.of_nat (length (register_names tr)) ≤ 2 ^ 32 →
     register_ids (newBaseHost LogLevelMax) tr
       = seqZ 0 (Z.of_nat (length (register_names tr)))).
Proof.
  split_and!.
  - intros b name. destruct (queueNameID b !! name) as [id|] eqn:Hn.
    + exists id, b. split; [by apply ProxyRegisterSharedQueue_known|].
      intros tr. by apply ProxyRegisterSharedQueue_known, run_queueNameID_persists.
    + do 2 eexists. split; [by apply ProxyRegisterSharedQueue_new|].
      intros tr. apply ProxyRegisterSharedQueue_known, run_queueNameID_persists.
      simpl. apply lookup_insert_eq.
  - intros b name [tr0 ->] Hnew Hlt.
    set (b := run (newBaseHost LogLevelMax) tr0) in *.
    assert (Hd : queues_dense b)
      by apply run_queues_dense, newBaseHost_queues_dense.
    destruct (register_new_id b Hd Hlt) as [Hid Hfree].
    eexists. rewrite ProxyRegisterSharedQueue_new by done. simpl.
    rewrite Hid. split_and!; [done| | |]; simpl.
    + by rewrite lookup_insert_eq.
    + by apply map_size_insert_None.
    + intros id Hne. by rewrite lookup_insert_ne.
  - intros tr Hnd Hbound.
    rewrite (register_ids_from (newBaseHost LogLevelMax) tr).
    + simpl. by rewrite map_size_empty.
    + apply newBaseHost_queues_dense.
    + done.
    + intros n _. simpl. apply lookup_empty.
    + simpl. rewrite map_size_empty. lia.
Qed.

Lemma ProxyRegisterSharedQueue_idempotent_sequential_witness :
  let tr := [CallRegisterSharedQueue "alpha";
             CallLog 0 "m";
             CallRegisterSharedQueue "beta";
             CallEnqueueSharedQueue 0 [Byte.x41];
             CallRegisterSharedQueue "gamma"] in
  register_ids (newBaseHost 6) tr = [0; 1; 2] ∧
  (∃ b', ProxyRegisterSharedQueue (run (newBaseHost 6) tr) "delta"
           = (Returned StatusOK (Some 3), b') ∧
         queues b' !! 3 = Some []).
Proof.
  intros tr.
  destruct (ProxyRegisterSharedQueue_idempotent_sequential 6)
    as (_ & Hnew & Hseq).
  split.
  - apply (Hseq tr).
    + apply (bool_decide_unpack _). vm_compute. exact I.
    + vm_compute. discriminate.
  - destruct (Hnew (run (newBaseHost 6) tr) "delta") as (b' & Hrun & Hq & _).
    + by exists tr.
    + reflexivity.
    + vm_compute. reflexivity.
    + exists b'. split; [exact Hrun | exact Hq].
Defined.

(** ** The CAS counter over sequences of calls *)

Lemma cas_chain_length s n : length (cas_chain s n) = n.
Proof. revert s. induction n as [|n IH]; intros s; simpl; [done|]. by rewrite IH. Qed.

Lemma cas_chain_lookup s n (i : nat) c s' :
  cas_chain s n !! i = Some (c, s') →
  s' = uint32 (c + 1) ∧ s' = uint32 (s + 1 + Z.of_nat i).
Proof.
  revert s i. induction n as [|n IH]; intros s i; simpl; [done|].
  destruct i as [|i]; simpl.
  - intros [= <- <-]. split; [done|]. f_equal. lia.
  - intros H. apply IH in H as [H1 H2]. split; [done|].
    rewrite H2, <- Z.add_assoc, uint32_succ_uint32. f_equal. lia.
Qed.

Lemma cas_chain_consecutive s n (i : nat) c1 s1 c2 s2 :
  cas_chain s n !! i = Some (c1, s1) →
  cas_chain s n !! S i = Some (c2, s2) →
  c2 = s1 ∧ s2 = uint32 (s1 + 1).
Proof.
  revert s i. induction n as [|n IH]; intros s i; simpl; [done|].
  destruct i as [|i]; simpl.
  - intros [= <- <-]. destruct n; simpl; [done|]. by intros [= <- <-].
  - apply IH.
Qed.

Lemma cas_chain_no_wrap s n :
  0 ≤ s → s + Z.of_nat n < 2 ^ 32 →
  (cas_chain s n).*2 = seqZ (s + 1) (Z.of_nat n).
Proof.
  revert s. induction n as [|n IH]; intros s Hs Hb; [done|].
  simpl cas_chain. rewrite seqZ_cons by lia.
  rewrite (uint32_small (s + 1)) by lia.
  rewrite fmap_cons, IH by lia. simpl. do 2 f_equal; lia.
Qed.

Lemma strictly_increasing_seqZ m (n : nat) :
  strictly_increasing (seqZ m (Z.of_nat n)).
Proof.
  revert m. induction n as [|n IH]; intros m; [done|].
  rewrite seqZ_cons by lia.
  replace (Z.pred (Z.of_nat (S n))) with (Z.of_nat n) by lia.
  specialize (IH (Z.succ m)). destruct n as [|n]; [done|].
  rewrite seqZ_cons in * by lia. simpl. split; [lia | done].
Qed.

Lemma accepted_writes_cons key b c tr :
  accepted_writes key b (c :: tr) =
    match accepted_write key (mkEvent b c (step b c).1 (step b c).2) with
    | Some w => w :: accepted_writes key (step b c).2 tr
    | None => accepted_writes key (step b c).2 tr
    end.
Proof. reflexivity. Qed.

Lemma call_set_key_or_not key c :
  (∃ v x, c = CallSetSharedData key v x) ∨ (∀ v x, c ≠ CallSetSharedData key v x).
Proof.
  destruct c; try (right; done).
  destruct (decide (key0 = key)) as [->|Hne]; [left; eauto|].
  right. intros v x [= ? ? ?]. done.
Qed.

(** Calls other than a write to [key] leave its entry alone and are not
    accepted writes to it. *)
Lemma step_other_keeps_key key b c :
  (∀ v x, c ≠ CallSetSharedData key v x) →
  sharedDataKVS (step b c).2 !! key = sharedDataKVS b !! key ∧
  accepted_write key (mkEvent b c (step b c).1 (step b c).2) = None.
Proof.
  intros Hc. destruct c; try (split; [by rewrite step_sharedDataKVS | done]).
  assert (Hne : key0 ≠ key) by (intros ->; by destruct (Hc value cas_)).
  split.
  - simpl. unfold answer, ProxySetSharedData.
    destruct (sharedDataKVS b !! key0) as [prev|]; simpl.
    + case_decide; simpl; [done|]. by rewrite !lookup_alter_ne.
    + by rewrite lookup_insert_ne.
  - unfold accepted_write. simpl. repeat case_match; try done.
Qed.

(** A write that finds no entry, or the CAS it expects, is accepted. *)
Lemma step_set_accepted key b v x :
  (sharedDataKVS b !! key = None ∨
   ∃ d, sharedDataKVS b !! key = Some d ∧ cas d = x) →
  sharedDataKVS (step b (CallSetSharedData key v x)).2 !! key
    = Some (mkSharedData v (uint32 (x + 1))) ∧
  accepted_write key
    (mkEvent b (CallSetSharedData key v x)
       (step b (CallSetSharedData key v x)).1
       (step b (CallSetSharedData key v x)).2)
    = Some (x, uint32 (x + 1)).
Proof.
  intros H.
  assert (Hstep : step b (CallSetSharedData key v x) =
            (RespStatus (Returned StatusOK ()),
             set_sharedDataKVS
               (<[key := mkSharedData v (uint32 (x + 1))]> (sharedDataKVS b)) b)).
  { simpl. destruct H as [Hnone|(d & Hd & Hx)].
    - by rewrite ProxySetSharedData_absent.
    - by rewrite (ProxySetSharedData_match _ _ _ _ d). }
  rewrite Hstep. unfold accepted_write. simpl.
  rewrite decide_True by done. by rewrite lookup_insert_eq.
Qed.

(** A write that expects another CAS than the stored one changes nothing. *)
Lemma step_set_rejected key b v x d :
  sharedDataKVS b !! key = Some d → cas d ≠ x →
  (step b (CallSetSharedData key v x)).2 = b ∧
  accepted_write key
    (mkEvent b (CallSetSharedData key v x)
       (step b (CallSetSharedData key v x)).1
       (step b (CallSetSharedData key v x)).2)
    = None.
Proof.
  intros Hd Hx.
  assert (Hstep : step b (CallSetSharedData key v x) =
            (RespStatus (Returned StatusCasMismatch ()), b)).
  { simpl. by rewrite (ProxySetSharedData_mismatch _ _ _ _ d). }
  by rewrite Hstep.
Qed.

(** Once the key exists with stored CAS [cas d], the accepted writes form
    a chain from it. *)
Lemma accepted_writes_present key b tr d :
  sharedDataKVS b !! key = Some d →
  accepted_writes key b tr
    = cas_chain (cas d) (length (accepted_writes key b tr)).
Proof.
  revert b d. induction tr as [|c tr IH]; intros b d Hd; [done|].
  rewrite accepted_writes_cons.
  destruct (call_set_key_or_not key c) as [(v & x & ->)|Hc].
  - destruct (decide (cas d = x)) as [Hx|Hx].
    + destruct (step_set_accepted key b v x) as [Hk Hw]; [right; eauto|].
      rewrite Hw. simpl length. simpl cas_chain. rewrite Hx. f_equal.
      by apply (IH _ (mkSharedData v (uint32 (x + 1)))).
    + destruct (step_set_rejected key b v x d Hd Hx) as [Hb Hw].
      rewrite Hw, Hb. by apply IH.
  - destruct (step_other_keeps_key key b c Hc) as [Hk Hw].
    rewrite Hw. apply IH. by rewrite Hk.
Qed.

(** From a host without the key, the accepted writes form a chain from
    the [expectedCas] of the first one. *)
Lemma accepted_writes_absent key b tr c0 s0 rest :
  sharedDataKVS b !! key = None →
  accepted_writes key b tr = (c0, s0) :: rest →
  accepted_writes key b tr = cas_chain c0 (length (accepted_writes key b tr)).
Proof.
  revert b. induction tr as [|c tr IH]; intros b Hnone; [done|].
  rewrite accepted_writes_cons.
  destruct (call_set_key_or_not key c) as [(v & x & ->)|Hc].
  - destruct (step_set_accepted key b v x) as [Hk Hw]; [by left|].
    rewrite Hw. intros [= <- <- <-]. simpl length. simpl cas_chain. f_equal.
    by apply (accepted_writes_present _ _ _ (mkSharedData v (uint32 (x + 1)))).
  - destruct (step_other_keeps_key key b c Hc) as [Hk Hw].
    rewrite Hw. apply IH. by rewrite Hk.
Qed.

(** C1 (as amended).  Take a key that is not yet in the store and any
    sequence of calls, and let [c0] be the [expectedCas] of the first
    accepted write to the key.  Every accepted write that passes
    [expectedCas = c] leaves the stored CAS at [c + 1] modulo 2^32; every
    accepted write after the first passes the CAS the previous one stored,
    so it increases the stored CAS by exactly 1 modulo 2^32.  The i-th
    observed value is [c0 + 1 + i] modulo 2^32: the sequence starts at 1
    when the first write passes 0, and it is [c0 + 1, c0 + 2, ...], strictly
    increasing, as long as the counter stays below 2^32. *)
Theorem cas_sequence_counts_from_first_write (b : baseHost) (key : string)
    (tr : list call) (c0 s0 : Z) (rest : list (Z * Z)) :
  sharedDataKVS b !! key = None →
  accepted_writes key b tr = (c0, s0) :: rest →
  (∀ (i : nat) c s,
     accepted_writes key b tr !! i = Some (c, s) →
     s = uint32 (c + 1) ∧ s = uint32 (c0 + 1 + Z.of_nat i)) ∧
  (∀ (i : nat) c1 s1 c2 s2,
     accepted_writes key b tr !! i = Some (c1, s1) →
     accepted_writes key b tr !! S i = Some (c2, s2) →
     c2 = s1 ∧ s2 = uint32 (s1 + 1)) ∧
  (c0 = 0 → head (cas_sequence key b tr) = Some 1) ∧
  (0 ≤ c0 →
   c0 + Z.of_nat (length (cas_sequence key b tr)) < 2 ^ 32 →
   cas_sequence key b tr
     = seqZ (c0 + 1) (Z.of_nat (length (cas_sequence key b tr))) ∧
   strictly_increasing (cas_sequence key b tr)).
Proof.
  intros Hnone Haw.
  pose proof (accepted_writes_absent key b tr c0 s0 rest Hnone Haw) as Hchain.
  split_and!.
  - intros i c s. rewrite Hchain. apply cas_chain_lookup.
  - intros i c1 s1 c2 s2. rewrite Hchain. apply cas_chain_consecutive.
  - intros ->. unfold cas_sequence. rewrite Hchain, Haw. reflexivity.
  - unfold cas_sequence. rewrite length_fmap. intros H0 Hb.
    assert (Heq : (accepted_writes key b tr).*2
                  = seqZ (c0 + 1) (Z.of_nat (length (accepted_writes key b tr)))).
    { rewrite Hchain at 1. by apply cas_chain_no_wrap. }
    split; [done|]. rewrite Heq. apply strictly_increasing_seqZ.
Qed.

Lemma cas_sequence_counts_from_first_write_witness :
  let tr := [CallSetSharedData "k" [Byte.x01] 0;
             CallSetSharedData "k" [Byte.x02] 1;
             CallSetSharedData "k" [Byte.x03] 1] in
  cas_sequence "k" (newBaseHost 6) tr = [1; 2] ∧
  strictly_increasing (cas_sequence "k" (newBaseHost 6) tr).
Proof.
  intros tr.
  destruct (cas_sequence_counts_from_first_write (newBaseHost 6) "k" tr
              0 1 [(1, 2)]) as (_ & _ & _ & Hseq); [reflexivity | reflexivity |].
  apply Hseq; [lia | vm_compute; reflexivity].
Defined.

(** C1 as stated does not hold: two accepted writes to a new key, the
    first passing 4294967294, are observed with the CAS values 4294967295
    and then 0, a sequence that neither starts at 1 nor increases. *)
Lemma cas_sequence_not_from_1_not_increasing :
  let tr := [CallSetSharedData "k" [Byte.x01] 4294967294;
             CallSetSharedData "k" [Byte.x02] 4294967295] in
  cas_sequence "k" (newBaseHost 6) tr = [4294967295; 0] ∧
  head (cas_sequence "k" (newBaseHost 6) tr) ≠ Some 1 ∧
  ¬ strictly_increasing (cas_sequence "k" (newBaseHost 6) tr).
Proof.
  intros tr.
  assert (H : cas_sequence "k" (newBaseHost 6) tr = [4294967295; 0])
    by (vm_compute; reflexivity).
  rewrite H. split_and!; [done | done |]. simpl. lia.
Qed.

(** ** First in, first out *)

Lemma run_enqueues b id q es :
  queues b !! id = Some q →
  queues (run b (CallEnqueueSharedQueue id <$> es)) !! id = Some (q ++ es).
Proof.
  revert b q. induction es as [|e es IH]; intros b q Hq.
  - simpl. by rewrite app_nil_r.
  - rewrite fmap_cons, run_cons. rewrite (IH _ (q ++ [e])).
    + by rewrite <- app_assoc.
    + simpl. rewrite (ProxyEnqueueSharedQueue_registered _ _ _ q) by done.
      simpl. by rewrite lookup_insert_eq.
Qed.

Lemma dequeued_cons id b c tr :
  dequeued id b (c :: tr) =
    match dequeued_payload id (mkEvent b c (step b c).1 (step b c).2) with
    | Some d => d :: dequeued id (step b c).2 tr
    | None => dequeued id (step b c).2 tr
    end.
Proof. reflexivity. Qed.

Lemma step_dequeue_head b id d rest :
  queues b !! id = Some (d :: rest) → d ≠ [] →
  queues (step b (CallDequeueSharedQueue id)).2 !! id = Some rest ∧
  dequeued_payload id
    (mkEvent b (CallDequeueSharedQueue id)
       (step b (CallDequeueSharedQueue id)).1
       (step b (CallDequeueSharedQueue id)).2) = Some d.
Proof.
  intros Hq Hd. simpl. rewrite (ProxyDequeueSharedQueue_head _ _ d rest) by done.
  simpl. rewrite lookup_insert_eq. split; [done|].
  unfold dequeued_payload. simpl. by rewrite decide_True.
Qed.

(** Payloads of positive length leave a queue in the order they are in it,
    and the queue is empty afterwards. *)
Lemma run_dequeues b id q :
  queues b !! id = Some q → Forall (λ d, d ≠ []) q →
  dequeued id b (replicate (length q) (CallDequeueSharedQueue id)) = q ∧
  queues (run b (replicate (length q) (CallDequeueSharedQueue id))) !! id
    = Some [].
Proof.
  revert b. induction q as [|d q IH]; intros b Hq Hne; [done|].
  apply Forall_cons in Hne as [Hd Hne].
  destruct (step_dequeue_head b id d q Hq Hd) as [Hq' Hout].
  simpl replicate. rewrite dequeued_cons, run_cons, Hout.
  destruct (IH _ Hq' Hne) as [H1 H2]. by rewrite H1, H2.
Qed.

(** The first-in-first-out law for payloads of positive length: enqueues
    [es] on a registered queue that is empty, then as many dequeues, hand
    out [es] in order; one more dequeue returns [StatusEmpty]. *)
Lemma fifo_order_nonempty (b : baseHost) (id : Z) (es : list bytes) :
  queues b !! id = Some [] →
  Forall (λ d, d ≠ []) es →
  let b1 := run b (CallEnqueueSharedQueue id <$> es) in
  let b2 := run b1 (replicate (length es) (CallDequeueSharedQueue id)) in
  dequeued id b1 (replicate (length es) (CallDequeueSharedQueue id)) = es ∧
  ProxyDequeueSharedQueue b2 id = (Returned StatusEmpty noBuffer, b2).
Proof.
  intros Hq Hne b1 b2.
  pose proof (run_enqueues b id [] es Hq) as Hq1. simpl in Hq1.
  destruct (run_dequeues b1 id es Hq1 Hne) as [H1 H2].
  split; [done|]. by apply ProxyDequeueSharedQueue_empty.
Qed.

(** C4, where the code departs from it.  A queue is registered on a new
    host and two payloads are enqueued, the first of length 0.  The queue
    holds two entries, but the dequeue panics on the first and leaves it at
    the head: the two dequeues hand out nothing, where the first-in-first-out
    law asks for the two payloads in order.  The other parts of the claim
    hold: an ID that is not registered gets [StatusNotFound] from dequeue
    and enqueue, a registered queue without entries gets [StatusEmpty]. *)
Theorem fifo_broken_by_empty_payload :
  let es := [[]; [Byte.x42]] in
  let b := run (newBaseHost 6)
             (CallRegisterSharedQueue "q1" :: (CallEnqueueSharedQueue 0 <$> es)) in
  GetQueueSize b 0 = 2 ∧
  ProxyDequeueSharedQueue b 0 = (Panicked noBuffer, b) ∧
  dequeued 0 b (replicate (length es) (CallDequeueSharedQueue 0)) = [] ∧
  dequeued 0 b (replicate (length es) (CallDequeueSharedQueue 0)) ≠ es ∧
  ProxyDequeueSharedQueue b 1 = (Returned StatusNotFound noBuffer, b) ∧
  ProxyEnqueueSharedQueue b 1 [Byte.x42] = (Returned StatusNotFound (), b) ∧
  (ProxyDequeueSharedQueue
     (run (newBaseHost 6) [CallRegisterSharedQueue "q1"]) 0).1
    = Returned StatusEmpty noBuffer.
Proof.
  intros es b.
  assert (Hq : queues b !! 0 = Some [[]; [Byte.x42]]) by reflexivity.
  assert (Hd : dequeued 0 b (replicate (length es) (CallDequeueSharedQueue 0)) = []).
  { simpl replicate. rewrite !dequeued_cons. simpl step.
    rewrite (ProxyDequeueSharedQueue_head_empty b 0 [[Byte.x42]] Hq). simpl.
    by rewrite (ProxyDequeueSharedQueue_head_empty b 0 [[Byte.x42]] Hq). }
  split_and!.
  - reflexivity.
  - by apply (ProxyDequeueSharedQueue_head_empty b 0 [[Byte.x42]]).
  - exact Hd.
  - by rewrite Hd.
  - by apply ProxyDequeueSharedQueue_unregistered.
  - by apply ProxyEnqueueSharedQueue_unregistered.
  - reflexivity.
Qed.

(** ** Registered IDs *)

Lemma run_names_match_queues b tr :
  names_match_queues b → names_match_queues (run b tr).
Proof.
  revert b. induction tr as [|c tr IH]; intros b Hb; [done|].
  rewrite run_cons. by apply IH, step_names_match_queues.
Qed.

(** On a host reached from a new one, the IDs that have a queue are the
    IDs answered for some registered name, and they are the first
    [len(b.queues)] naturals. *)
Lemma registered_iff_named LogLevelMax b id :
  reachable LogLevelMax b →
  (is_Some (queues b !! id) ↔ ∃ name, queueNameID b !! name = Some id) ∧
  (is_Some (queues b !! id) ↔ 0 ≤ id < Z.of_nat (size (queues b))).
Proof.
  intros [tr ->].
  assert (Hm : names_match_queues (run (newBaseHost LogLevelMax) tr)).
  { apply run_names_match_queues. split; simpl.
    - intros name i. by rewrite lookup_empty.
    - intros i. rewrite lookup_empty. by intros [? ?]. }
  destruct Hm as [Hn Hq]. split.
  - split; [apply Hq | intros [name Hname]; by eapply Hn].
  - apply run_queues_dense, newBaseHost_queues_dense.
Qed.

(** * Further properties of the host *)

(** ** Failure, isolation, the new host *)

(** X1.  A call that does not return [StatusOK], because it returns
    another status or because it panics, leaves the host exactly as it
    found it. *)
Theorem failed_call_leaves_host (b : baseHost) (c : call) :
  succeeded (step b c).1 = false → (step b c).2 = b.
Proof. step_cases c. Qed.

Lemma failed_call_leaves_host_witness :
  let b := run (newBaseHost 6)
             [CallRegisterSharedQueue "q"; CallSetSharedData "k" [Byte.x01] 0] in
  (step b (CallDequeueSharedQueue 0)).2 = b ∧
  (step b (CallSetSharedData "k" [Byte.x02] 0)).2 = b ∧
  (step b (CallLog 6 "m")).2 = b.
Proof.
  intros b. split_and!; apply failed_call_leaves_host; reflexivity.
Defined.

(** X2.  A call changes only the component it belongs to: the log
    buckets, the tick period, the queues with their names, the shared
    data and the metrics are each untouched by the calls of the other
    components, and the two reading calls [ProxyGetSharedData] and
    [ProxyGetMetric] change nothing at all. *)
Theorem calls_stay_in_their_component (b : baseHost) (c : call) :
  (call_component c ≠ LogStore → logs (step b c).2 = logs b) ∧
  (call_component c ≠ TickController →
     tickPeriod (step b c).2 = tickPeriod b) ∧
  (call_component c ≠ QueueRegistry →
     queues (step b c).2 = queues b ∧
     queueNameID (step b c).2 = queueNameID b) ∧
  (call_component c ≠ SharedDataStore →
     sharedDataKVS (step b c).2 = sharedDataKVS b) ∧
  (call_component c ≠ MetricsRegistry →
     metricIDToValue (step b c).2 = metricIDToValue b ∧
     metricIDToType (step b c).2 = metricIDToType b ∧
     metricNameToID (step b c).2 = metricNameToID b) ∧
  ((∃ k, c = CallGetSharedData k) ∨ (∃ i, c = CallGetMetric i) →
     (step b c).2 = b).
Proof.
  destruct c; unfold_step; repeat case_match; simpl;
    split_and!; try done; intros [[? ?]|[? ?]]; done.
Qed.

Lemma calls_stay_in_their_component_witness :
  let b := run (newBaseHost 6)
             [CallRegisterSharedQueue "q"; CallSetSharedData "k" [Byte.x01] 0] in
  queues (step b (CallSetSharedData "k" [Byte.x02] 1)).2 = queues b ∧
  sharedDataKVS (step b (CallEnqueueSharedQueue 0 [Byte.x01])).2
    = sharedDataKVS b ∧
  (step b (CallGetSharedData "k")).2 = b.
Proof.
  intros b. split_and!.
  - apply (calls_stay_in_their_component b (CallSetSharedData "k" [Byte.x02] 1)).
    discriminate.
  - apply (calls_stay_in_their_component b (CallEnqueueSharedQueue 0 [Byte.x01])).
    discriminate.
  - apply (calls_stay_in_their_component b (CallGetSharedData "k")).
    left. by exists "k".
Defined.

(** ** The tick period *)

Lemma step_tickPeriod b c :
  (∀ p, c ≠ CallSetTickPeriod p) → tickPeriod (step b c).2 = tickPeriod b.
Proof. intros H. step_cases c. by destruct (H period). Qed.

Lemma run_snoc b tr c : run b (tr ++ [c]) = (step (run b tr) c).2.
Proof. unfold run. by rewrite foldl_app. Qed.

(** X3.  [GetTickPeriod] answers the period of the last call of
    [ProxySetTickPeriodMilliseconds], whatever other calls came before or
    after it, with no bound or validation; if there was none it answers
    the period the host started with, which is 0 on a new host. *)
Theorem tick_period_is_last_request (b : baseHost) (tr : list call) :
  GetTickPeriod (run b tr) = default (tickPeriod b) (last (tick_requests tr)) ∧
  ∀ LogLevelMax,
    GetTickPeriod (run (newBaseHost LogLevelMax) tr)
      = default 0 (last (tick_requests tr)).
Proof.
  assert (H : ∀ h, GetTickPeriod (run h tr)
                   = default (tickPeriod h) (last (tick_requests tr))).
  { intros h. unfold GetTickPeriod, tick_requests.
    induction tr as [|c tr IH] using rev_ind; [done|].
    rewrite run_snoc, omap_app. simpl.
    destruct (tick_request c) as [p|] eqn:Hc.
    - destruct c; try done. simplify_eq/=. by rewrite last_snoc.
    - rewrite app_nil_r, <- IH. apply step_tickPeriod.
      intros p ->. done. }
  split; [apply H|]. intros LogLevelMax. apply H.
Qed.

(** ** Shared data: reading back, stale writers, the life of a key *)

Lemma uint32_succ_ne (c : Z) : uint32 (c + 1) ≠ c.
Proof.
  pose proof (uint32_range (c + 1)) as Hr. intros Heq.
  destruct (decide (c + 1 < 2 ^ 32)) as [Hlt|Hge].
  - rewrite uint32_small in Heq by lia. lia.
  - assert (c = 2 ^ 32 - 1) as -> by lia. by vm_compute in Heq.
Qed.

(** What an accepted write stores. *)
Lemma ProxySetSharedData_accepted b key v c :
  (ProxySetSharedData b key v c).1 = Returned StatusOK () →
  sharedDataKVS (ProxySetSharedData b key v c).2 !! key
    = Some (mkSharedData v (uint32 (c + 1))).
Proof.
  destruct (sharedDataKVS b !! key) as [prev|] eqn:Hk.
  - destruct (decide (cas prev = c)) as [Hc|Hc].
    + rewrite (ProxySetSharedData_match _ _ _ _ prev) by done. simpl.
      by rewrite lookup_insert_eq.
    + by rewrite (ProxySetSharedData_mismatch _ _ _ _ prev).
  - rewrite ProxySetSharedData_absent by done. simpl.
    by rewrite lookup_insert_eq.
Qed.

(** X4.  Reading back: after an accepted [ProxySetSharedData] of a payload
    of positive length with [expectedCas = c], [ProxyGetSharedData] on the
    key returns [StatusOK] with that payload, its length and the CAS
    [c + 1] (in [uint32]), and does not change the host. *)
Theorem get_after_set (b : baseHost) (key : string) (v : bytes) (c : Z) :
  (ProxySetSharedData b key v c).1 = Returned StatusOK () →
  v ≠ [] →
  let b1 := (ProxySetSharedData b key v c).2 in
  ProxyGetSharedData b1 key
    = (Returned StatusOK
         (mkSharedDataOut (Some v) (Some (Z.of_nat (length v)))
            (Some (uint32 (c + 1)))), b1).
Proof.
  intros Hok Hv b1.
  apply (ProxyGetSharedData_nonempty b1 key (mkSharedData v (uint32 (c + 1))));
    [by apply ProxySetSharedData_accepted | done].
Qed.

Lemma get_after_set_witness :
  let b1 := (ProxySetSharedData (newBaseHost 6) "k" [Byte.x01; Byte.x02] 7).2 in
  ProxyGetSharedData b1 "k"
    = (Returned StatusOK
         (mkSharedDataOut (Some [Byte.x01; Byte.x02]) (Some 2) (Some 8)), b1).
Proof.
  intros b1.
  apply (get_after_set (newBaseHost 6) "k" [Byte.x01; Byte.x02] 7);
    [reflexivity | discriminate].
Defined.

(** X5.  No lost update: once a write with [expectedCas = c] has been
    accepted, a second write to the key that still passes [c] (a writer
    that read the entry before the first write) returns
    [StatusCasMismatch], and the entry keeps the first writer's payload;
    a write passing the new CAS, [c + 1] in [uint32], is accepted. *)
Theorem stale_write_rejected (b : baseHost) (key : string) (v1 v2 : bytes)
    (c : Z) :
  (ProxySetSharedData b key v1 c).1 = Returned StatusOK () →
  let b1 := (ProxySetSharedData b key v1 c).2 in
  ProxySetSharedData b1 key v2 c = (Returned StatusCasMismatch (), b1) ∧
  sharedDataKVS b1 !! key = Some (mkSharedData v1 (uint32 (c + 1))) ∧
  (ProxySetSharedData b1 key v2 (uint32 (c + 1))).1 = Returned StatusOK ().
Proof.
  intros Hok b1.
  pose proof (ProxySetSharedData_accepted b key v1 c Hok) as Hk.
  fold b1 in Hk. split_and!; [|done|].
  - apply (ProxySetSharedData_mismatch _ _ _ _ _ Hk). simpl.
    apply uint32_succ_ne.
  - by rewrite (ProxySetSharedData_match _ _ _ _ _ Hk).
Qed.

Lemma stale_write_rejected_witness :
  let b0 := (ProxySetSharedData (newBaseHost 6) "k" [Byte.x01] 4294967294).2 in
  let b1 := (ProxySetSharedData b0 "k" [Byte.x02] 4294967295).2 in
  ProxySetSharedData b1 "k" [Byte.x03] 4294967295
    = (Returned StatusCasMismatch (), b1) ∧
  sharedDataKVS b1 !! "k" = Some (mkSharedData [Byte.x02] 0).
Proof.
  intros b0 b1.
  destruct (stale_write_rejected b0 "k" [Byte.x02] [Byte.x03] 4294967295)
    as (H1 & H2 & _); [reflexivity|].
  split; [exact H1 | exact H2].
Defined.

Lemma run_other_keeps_key key b tr :
  Forall (λ c, ∀ v x, c ≠ CallSetSharedData key v x) tr →
  sharedDataKVS (run b tr) !! key = sharedDataKVS b !! key.
Proof.
  revert b. induction tr as [|c tr IH]; intros b Htr; [done|].
  apply Forall_cons in Htr as [Hc Htr]. rewrite run_cons, IH by done.
  by apply step_other_keeps_key.
Qed.

Lemma step_key_stays key b c :
  is_Some (sharedDataKVS b !! key) →
  is_Some (sharedDataKVS (step b c).2 !! key).
Proof.
  intros [d Hd]. destruct (call_set_key_or_not key c) as [(v & x & ->)|Hc].
  - destruct (decide (cas d = x)) as [Hx|Hx].
    + destruct (step_set_accepted key b v x) as [Hk _]; [right; eauto|].
      by rewrite Hk.
    + destruct (step_set_rejected key b v x d Hd Hx) as [Hb _].
      rewrite Hb, Hd. eauto.
  - destruct (step_other_keeps_key key b c Hc) as [Hk _]. rewrite Hk, Hd. eauto.
Qed.

(** X6.  The entry of a key is touched only by writes to that key: after a
    sequence of calls without a [ProxySetSharedData] on the key its
    payload and CAS are what they were, and on a host started new
    [ProxyGetSharedData] on it returns [StatusNotFound], writing no output
    parameter. *)
Theorem unwritten_key_is_untouched (b : baseHost) (key : string)
    (tr : list call) :
  Forall (λ c, ∀ v x, c ≠ CallSetSharedData key v x) tr →
  sharedDataKVS (run b tr) !! key = sharedDataKVS b !! key ∧
  ∀ LogLevelMax,
    ProxyGetSharedData (run (newBaseHost LogLevelMax) tr) key
      = (Returned StatusNotFound noSharedData, run (newBaseHost LogLevelMax) tr).
Proof.
  intros Htr. split; [by apply run_other_keeps_key|].
  intros LogLevelMax. unfold ProxyGetSharedData.
  by rewrite run_other_keeps_key by done.
Qed.

Lemma unwritten_key_is_untouched_witness :
  let tr := [CallSetSharedData "other" [Byte.x01] 0;
             CallGetSharedData "k";
             CallRegisterSharedQueue "k"] in
  ProxyGetSharedData (run (newBaseHost 6) tr) "k"
    = (Returned StatusNotFound noSharedData, run (newBaseHost 6) tr).
Proof.
  intros tr.
  apply (unwritten_key_is_untouched (newBaseHost 6) "k" tr).
  repeat constructor; discriminate.
Defined.

(** X7.  Nothing deletes a key: once a key is in the store it is there
    after every sequence of calls, so [ProxyGetSharedData] on it never
    returns [StatusNotFound] again, and a [ProxySetSharedData] on it is
    always compared against the stored CAS. *)
Theorem written_key_stays (b : baseHost) (key : string) (tr : list call) :
  is_Some (sharedDataKVS b !! key) →
  is_Some (sharedDataKVS (run b tr) !! key) ∧
  (ProxyGetSharedData (run b tr) key).1 ≠ Returned StatusNotFound noSharedData ∧
  ∀ v c,
    (ProxySetSharedData (run b tr) key v c).1 = Returned StatusOK () →
    ∃ d, sharedDataKVS (run b tr) !! key = Some d ∧ cas d = c.
Proof.
  intros Hk.
  assert (Hs : is_Some (sharedDataKVS (run b tr) !! key)).
  { revert b Hk. induction tr as [|c tr IH]; intros b Hk; [done|].
    rewrite run_cons. by apply IH, step_key_stays. }
  destruct Hs as [d Hd]. split_and!; [eauto| |].
  - unfold ProxyGetSharedData. rewrite Hd. by destruct (data d).
  - intros v c Hok. exists d. split; [done|].
    destruct (decide (cas d = c)) as [|Hne]; [done|].
    by rewrite (ProxySetSharedData_mismatch _ _ _ _ d) in Hok.
Qed.

Lemma written_key_stays_witness :
  let b := (ProxySetSharedData (newBaseHost 6) "k" [Byte.x01] 0).2 in
  let tr := [CallSetSharedData "k" [Byte.x02] 5; CallRegisterSharedQueue "k";
             CallSetSharedData "j" [] 0] in
  is_Some (sharedDataKVS (run b tr) !! "k").
Proof.
  intros b tr. apply (written_key_stays b "k" tr). by exists (mkSharedData [Byte.x01] 1).
Defined.

(** ** Queues over sequences of calls *)

Lemma step_queues_size_le b c :
  (size (queues b) ≤ size (queues (step b c).2))%nat.
Proof.
  destruct (call_register_or_not c) as [[n ->]|Hc].
  - simpl. unfold ProxyRegisterSharedQueue.
    destruct (queueNameID b !! n); simpl; [done|].
    rewrite map_size_insert. case_match; simpl; lia.
  - by rewrite step_queues_size.
Qed.

Lemma run_queues_size_le b tr :
  (size (queues b) ≤ size (queues (run b tr)))%nat.
Proof.
  revert b. induction tr as [|c tr IH]; intros b; [done|].
  rewrite run_cons. etrans; [apply step_queues_size_le | apply IH].
Qed.

Lemma enqueued_cons id b c tr :
  enqueued id b (c :: tr) =
    option_list (enqueued_payload id (mkEvent b c (step b c).1 (step b c).2))
    ++ enqueued id (step b c).2 tr.
Proof. unfold enqueued. simpl. by case_match. Qed.

Lemma dequeued_cons_app id b c tr :
  dequeued id b (c :: tr) =
    option_list (dequeued_payload id (mkEvent b c (step b c).1 (step b c).2))
    ++ dequeued id (step b c).2 tr.
Proof. unfold dequeued. simpl. by case_match. Qed.

Lemma step_queues_other b c :
  call_component c ≠ QueueRegistry → queues (step b c).2 = queues b.
Proof. intros H. step_cases c. Qed.

(** One call and one queue: what was in the queue followed by what the
    call enqueued is what the call dequeued followed by what is in the
    queue now; a payload handed out is never of length 0. *)
Lemma step_queue_conservation b c id q0 :
  queues_dense b →
  queues b !! id = Some q0 →
  Z.of_nat (size (queues b)) < 2 ^ 32 →
  ∃ q1,
    queues (step b c).2 !! id = Some q1 ∧
    q0 ++ option_list (enqueued_payload id (mkEvent b c (step b c).1 (step b c).2))
      = option_list (dequeued_payload id (mkEvent b c (step b c).1 (step b c).2))
        ++ q1 ∧
    ∀ d, dequeued_payload id (mkEvent b c (step b c).1 (step b c).2) = Some d →
         d ≠ [].
Proof.
  intros Hd Hq Hlt.
  destruct c as [l s|p|n|q|q v|k|k v x|t n|i d|i v|i];
    try (exists q0; rewrite step_queues_other by done;
         split; [done|]; split; [by rewrite app_nil_r | done]).
  - (* register *)
    unfold enqueued_payload, dequeued_payload. simpl.
    destruct (queueNameID b !! n) as [i|] eqn:Hn.
    + rewrite (ProxyRegisterSharedQueue_known _ _ i) by done. simpl.
      exists q0. rewrite app_nil_r. done.
    + rewrite ProxyRegisterSharedQueue_new by done. simpl.
      destruct (register_new_id b Hd Hlt) as [Hid Hfree]. rewrite Hid.
      exists q0. rewrite app_nil_r. split; [|done].
      rewrite lookup_insert_ne; [done|]. intros <-. congruence.
  - (* dequeue *)
    unfold enqueued_payload. simpl. rewrite app_nil_r.
    destruct (decide (q = id)) as [->|Hne].
    + destruct q0 as [|d rest].
      * rewrite ProxyDequeueSharedQueue_empty by done.
        exists []. unfold dequeued_payload. simpl. done.
      * destruct d as [|x d].
        -- rewrite (ProxyDequeueSharedQueue_head_empty _ _ rest) by done.
           exists ([] :: rest). unfold dequeued_payload. simpl. done.
        -- rewrite (ProxyDequeueSharedQueue_head _ _ (x :: d) rest) by done.
           exists rest. unfold dequeued_payload. simpl.
           rewrite decide_True by done. rewrite lookup_insert_eq.
           split_and!; [done | done |]. by intros ? [= <-].
    + exists q0. unfold dequeued_payload. simpl. split_and!.
      * unfold ProxyDequeueSharedQueue. repeat case_match; simpl; try done.
        by rewrite lookup_insert_ne.
      * repeat case_match; try done.
      * intros d0. repeat case_match; try done.
  - (* enqueue *)
    unfold dequeued_payload. simpl.
    destruct (decide (q = id)) as [->|Hne].
    + rewrite (ProxyEnqueueSharedQueue_registered _ _ _ q0) by done.
      exists (q0 ++ [v]). unfold enqueued_payload. simpl.
      rewrite decide_True by done. by rewrite lookup_insert_eq.
    + exists q0. unfold enqueued_payload. simpl. split_and!; [| |done].
      * unfold ProxyEnqueueSharedQueue. case_match; simpl; [|done].
        by rewrite lookup_insert_ne.
      * repeat case_match; try done; by rewrite app_nil_r.
Qed.

(** The same over a sequence of calls. *)
Lemma run_queue_conservation b tr id q0 :
  queues_dense b →
  queues b !! id = Some q0 →
  Z.of_nat (size (queues (run b tr))) < 2 ^ 32 →
  ∃ q,
    queues (run b tr) !! id = Some q ∧
    q0 ++ enqueued id b tr = dequeued id b tr ++ q ∧
    Forall (λ d, d ≠ []) (dequeued id b tr).
Proof.
  revert b q0. induction tr as [|c tr IH]; intros b q0 Hd Hq Hlt.
  - exists q0. by rewrite app_nil_r.
  - rewrite run_cons in *.
    pose proof (run_queues_size_le (step b c).2 tr) as Hle1.
    pose proof (step_queues_size_le b c) as Hle2.
    destruct (step_queue_conservation b c id q0 Hd Hq) as (q1 & Hq1 & Heq & Hne);
      [lia|].
    destruct (IH (step b c).2 q1) as (q & Hfin & Heq' & Hne');
      [by apply step_queues_dense | done | done |].
    exists q. rewrite enqueued_cons, dequeued_cons_app.
    split_and!; [done | |].
    + by rewrite app_assoc, Heq, <- !app_assoc, Heq'.
    + apply Forall_app. split; [|done].
      destruct (dequeued_payload id _) as [d|]; simpl; [|done].
      constructor; [by apply Hne | done].
Qed.

(** X8.  First in, first out under any interleaving.  On a host reached
    from a new one, take a registered queue and any sequence of calls (on
    this queue, on other queues, registrations, anything else) that leaves
    fewer than 2^32 queues.  The payloads the queue held, followed by those
    enqueued on it, are exactly those dequeued from it followed by those
    it holds at the end, all in order; every payload handed out has
    positive length; and [GetQueueSize] is the size before plus the
    accepted enqueues minus the successful dequeues. *)
Theorem queue_conservation (LogLevelMax : nat) (b : baseHost) (id : Z)
    (q0 : list bytes) (tr : list call) :
  reachable LogLevelMax b →
  queues b !! id = Some q0 →
  Z.of_nat (size (queues (run b tr))) < 2 ^ 32 →
  ∃ q,
    queues (run b tr) !! id = Some q ∧
    q0 ++ enqueued id b tr = dequeued id b tr ++ q ∧
    Forall (λ d, d ≠ []) (dequeued id b tr) ∧
    GetQueueSize (run b tr) id
      = GetQueueSize b id + Z.of_nat (length (enqueued id b tr))
        - Z.of_nat (length (dequeued id b tr)).
Proof.
  intros [tr0 ->] Hq Hlt.
  destruct (run_queue_conservation (run (newBaseHost LogLevelMax) tr0) tr id q0)
    as (q & Hfin & Heq & Hne);
    [apply run_queues_dense, newBaseHost_queues_dense | done | done |].
  exists q. split_and!; [done | done | done |].
  unfold GetQueueSize. rewrite Hfin, Hq. simpl.
  apply (f_equal length) in Heq. rewrite !length_app in Heq. lia.
Qed.

Lemma queue_conservation_witness :
  let b := run (newBaseHost 6) [CallRegisterSharedQueue "q1"] in
  let tr := [CallEnqueueSharedQueue 0 [Byte.x41];
             CallRegisterSharedQueue "q2";
             CallEnqueueSharedQueue 0 [Byte.x42];
             CallDequeueSharedQueue 0;
             CallEnqueueSharedQueue 1 [Byte.x43];
             CallEnqueueSharedQueue 0 [Byte.x44]] in
  ∃ q, queues (run b tr) !! 0 = Some q ∧
       [] ++ enqueued 0 b tr = dequeued 0 b tr ++ q ∧
       GetQueueSize (run b tr) 0 = 2.
Proof.
  intros b tr.
  destruct (queue_conservation 6 b 0 [] tr) as (q & H1 & H2 & _ & H4).
  - by exists [CallRegisterSharedQueue "q1"].
  - reflexivity.
  - vm_compute. reflexivity.
  - exists q. split_and!; [exact H1 | exact H2 | exact H4].
Defined.

(** X9.  A payload of length 0 at the head blocks its queue.  With such
    a head on a host reached from a new one, whatever calls follow (fewer
    than 2^32 queues), no dequeue from this queue ever hands out a
    payload: the queue keeps the empty payload at its head, only grows at
    its tail, and the next [ProxyDequeueSharedQueue] on it panics again. *)
Theorem empty_head_blocks_queue (LogLevelMax : nat) (b : baseHost) (id : Z)
    (rest : list bytes) (tr : list call) :
  reachable LogLevelMax b →
  queues b !! id = Some ([] :: rest) →
  Z.of_nat (size (queues (run b tr))) < 2 ^ 32 →
  dequeued id b tr = [] ∧
  queues (run b tr) !! id = Some ([] :: rest ++ enqueued id b tr) ∧
  ProxyDequeueSharedQueue (run b tr) id = (Panicked noBuffer, run b tr).
Proof.
  intros [tr0 ->] Hq Hlt.
  destruct (run_queue_conservation (run (newBaseHost LogLevelMax) tr0) tr id
              ([] :: rest)) as (q & Hfin & Heq & Hne);
    [apply run_queues_dense, newBaseHost_queues_dense | done | done |].
  assert (Hd : dequeued id (run (newBaseHost LogLevelMax) tr0) tr = []).
  { destruct (dequeued id (run (newBaseHost LogLevelMax) tr0) tr) as [|d ds];
      [done|].
    apply Forall_cons in Hne as [Hd _]. simpl in Heq. by injection Heq as <-. }
  rewrite Hd in *. simpl in Heq. subst q. split_and!; [done | done |].
  by eapply ProxyDequeueSharedQueue_head_empty.
Qed.

Lemma empty_head_blocks_queue_witness :
  let b := run (newBaseHost 6)
             [CallRegisterSharedQueue "q1"; CallEnqueueSharedQueue 0 []] in
  let tr := [CallEnqueueSharedQueue 0 [Byte.x42];
             CallDequeueSharedQueue 0;
             CallRegisterSharedQueue "q2";
             CallDequeueSharedQueue 0] in
  dequeued 0 b tr = [] ∧
  ProxyDequeueSharedQueue (run b tr) 0 = (Panicked noBuffer, run b tr).
Proof.
  intros b tr.
  destruct (empty_head_blocks_queue 6 b 0 [] tr) as (H1 & _ & H3).
  - by exists [CallRegisterSharedQueue "q1"; CallEnqueueSharedQueue 0 []].
  - reflexivity.
  - vm_compute. reflexivity.
  - split; [exact H1 | exact H3].
Defined.

(** ** Queue IDs and names *)

Lemma step_queue_stays b c id :
  is_Some (queues b !! id) → is_Some (queues (step b c).2 !! id).
Proof.
  intros Hs. destruct (call_register_or_not c) as [[n ->]|Hc].
  - simpl. unfold ProxyRegisterSharedQueue.
    destruct (queueNameID b !! n); simpl; [done|].
    rewrite lookup_insert_is_Some'. by right.
  - by rewrite step_queues_is_Some.
Qed.

Lemma run_queue_stays b tr id :
  is_Some (queues b !! id) → is_Some (queues (run b tr) !! id).
Proof.
  revert b. induction tr as [|c tr IH]; intros b Hb; [done|].
  rewrite run_cons. by apply IH, step_queue_stays.
Qed.

Lemma newBaseHost_names_match_queues LogLevelMax :
  names_match_queues (newBaseHost LogLevelMax).
Proof.
  split; simpl.
  - intros name i. by rewrite lookup_empty.
  - intros i. rewrite lookup_empty. by intros [? ?].
Qed.

(** X10.  An ID answered by [ProxyRegisterSharedQueue] on a host reached
    from a new one names a queue from then on: after any further calls
    [ProxyEnqueueSharedQueue] on it returns [StatusOK] and
    [ProxyDequeueSharedQueue] on it does not return [StatusNotFound].
    Nothing unregisters a queue. *)
Theorem registered_id_stays_valid (LogLevelMax : nat) (b : baseHost)
    (name : string) :
  reachable LogLevelMax b →
  ∃ id b',
    ProxyRegisterSharedQueue b name = (Returned StatusOK (Some id), b') ∧
    ∀ tr,
      (∀ v, (ProxyEnqueueSharedQueue (run b' tr) id v).1 = Returned StatusOK ()) ∧
      (ProxyDequeueSharedQueue (run b' tr) id).1
        ≠ Returned StatusNotFound noBuffer.
Proof.
  intros [tr0 ->].
  set (b := run (newBaseHost LogLevelMax) tr0).
  assert (Hm : names_match_queues b)
    by apply run_names_match_queues, newBaseHost_names_match_queues.
  assert (H : ∃ id b',
             ProxyRegisterSharedQueue b name = (Returned StatusOK (Some id), b') ∧
             is_Some (queues b' !! id)).
  { destruct (queueNameID b !! name) as [id|] eqn:Hn.
    - exists id, b. split; [by apply ProxyRegisterSharedQueue_known|].
      by apply (proj1 Hm name).
    - do 2 eexists. split; [by apply ProxyRegisterSharedQueue_new|].
      simpl. rewrite lookup_insert_eq. eauto. }
  destruct H as (id & b' & Hreg & Hs). exists id, b'. split; [done|].
  intros tr. destruct (run_queue_stays b' tr id Hs) as [q Hq]. split.
  - intros v. by rewrite (ProxyEnqueueSharedQueue_registered _ _ _ q).
  - unfold ProxyDequeueSharedQueue. rewrite Hq. by repeat case_match.
Qed.

Lemma registered_id_stays_valid_witness :
  ∃ id b',
    ProxyRegisterSharedQueue (newBaseHost 6) "q1"
      = (Returned StatusOK (Some id), b') ∧
    (ProxyEnqueueSharedQueue
       (run b' [CallRegisterSharedQueue "q2"; CallDequeueSharedQueue id])
       id [Byte.x41]).1 = Returned StatusOK ().
Proof.
  destruct (registered_id_stays_valid 6 (newBaseHost 6) "q1")
    as (id & b' & Hreg & Hlater); [by exists []|].
  exists id, b'. split; [exact Hreg|].
  apply (Hlater [CallRegisterSharedQueue "q2"; CallDequeueSharedQueue id]).
Defined.

Lemma step_queue_names_distinct b c :
  queues_dense b → queue_names_distinct b →
  queue_names_distinct (step b c).2.
Proof.
  intros Hd Hinv. destruct (call_register_or_not c) as [[n ->]|Hc].
  - simpl. unfold ProxyRegisterSharedQueue.
    destruct (queueNameID b !! n) as [i|] eqn:Hn; simpl; [done|].
    unfold queue_names_distinct. simpl.
    rewrite (map_size_insert_None n) by done. intros Hb.
    destruct Hinv as (Hsz & Hrange & Hinj); [lia|].
    destruct (register_new_id b Hd) as [Hid Hfree]; [lia|].
    rewrite Hid. rewrite map_size_insert_None by done.
    split_and!; [by rewrite Hsz | |].
    + intros n' i. rewrite lookup_insert_Some.
      intros [[<- <-]|[Hne Hi]]; [lia|]. apply Hrange in Hi. lia.
    + intros n1 n2 i. rewrite !lookup_insert_Some.
      intros [[<- <-]|[Hne1 H1]] [[<- Hi]|[Hne2 H2]]; try done.
      * apply Hrange in H2. lia.
      * apply Hrange in H1. lia.
      * by eapply Hinj.
  - unfold queue_names_distinct.
    by rewrite step_queueNameID, step_queues_size by done.
Qed.

Lemma run_queue_names_distinct b tr :
  queues_dense b → queue_names_distinct b →
  queue_names_distinct (run b tr).
Proof.
  revert b. induction tr as [|c tr IH]; intros b Hd Hinv; [done|].
  rewrite run_cons.
  apply IH; [by apply step_queues_dense | by apply step_queue_names_distinct].
Qed.

Lemma newBaseHost_queue_names_distinct LogLevelMax :
  queue_names_distinct (newBaseHost LogLevelMax).
Proof.
  intros _. simpl. split_and!; [done | |]; intros *; by rewrite lookup_empty.
Qed.

(** X11.  Distinct names, distinct queues: on a host reached from a new
    one with at most 2^32 registered names, two names never share an ID,
    every name's ID is below the number of names, and there are exactly as
    many queues as names. *)
Theorem queue_names_get_distinct_ids (LogLevelMax : nat) (b : baseHost) :
  reachable LogLevelMax b →
  Z.of_nat (size (queueNameID b)) ≤ 2 ^ 32 →
  (∀ n1 n2 id, queueNameID b !! n1 = Some id →
               queueNameID b !! n2 = Some id → n1 = n2) ∧
  (∀ n id, queueNameID b !! n = Some id →
           0 ≤ id < Z.of_nat (size (queueNameID b))) ∧
  size (queues b) = size (queueNameID b).
Proof.
  intros [tr ->] Hb.
  destruct (run_queue_names_distinct (newBaseHost LogLevelMax) tr)
    as (Hsz & Hrange & Hinj);
    [apply newBaseHost_queues_dense
    | apply newBaseHost_queue_names_distinct | done |].
  done.
Qed.

Lemma queue_names_get_distinct_ids_witness :
  let b := run (newBaseHost 6)
             [CallRegisterSharedQueue "q1"; CallRegisterSharedQueue "q2";
              CallRegisterSharedQueue "q1"] in
  size (queues b) = size (queueNameID b) ∧
  ∀ n, queueNameID b !! n = Some 0 → n = "q1".
Proof.
  intros b.
  destruct (queue_names_get_distinct_ids 6 b) as (Hinj & _ & Hsz).
  - by exists [CallRegisterSharedQueue "q1"; CallRegisterSharedQueue "q2";
               CallRegisterSharedQueue "q1"].
  - vm_compute. discriminate.
  - split; [exact Hsz|]. intros n Hn. apply (Hinj n "q1" 0 Hn). reflexivity.
Defined.

(** ** The metrics registry over sequences of calls *)

Lemma call_define_or_not c :
  (∃ t n, c = CallDefineMetric t n) ∨ (∀ t n, c ≠ CallDefineMetric t n).
Proof. destruct c; try (right; done). left; eauto. Qed.

Lemma ProxyDefineMetric_known b t name id :
  metricNameToID b !! name = Some id →
  ProxyDefineMetric b t name = (Returned StatusOK (Some id), b).
Proof. intros H. unfold ProxyDefineMetric. by rewrite H. Qed.

Lemma ProxyDefineMetric_new b t name :
  metricNameToID b !! name = None →
  ProxyDefineMetric b t name =
    let id := uint32 (Z.of_nat (size (metricNameToID b))) in
    (Returned StatusOK (Some id),
     set_metricIDToType (<[id := t]> (metricIDToType b))
       (set_metricIDToValue (<[id := 0]> (metricIDToValue b))
          (set_metricNameToID (<[name := id]> (metricNameToID b)) b))).
Proof. intros H. unfold ProxyDefineMetric. by rewrite H. Qed.

Lemma step_metricNameToID b c :
  (∀ t n, c ≠ CallDefineMetric t n) →
  metricNameToID (step b c).2 = metricNameToID b ∧
  metricIDToType (step b c).2 = metricIDToType b.
Proof. intros H. step_cases c; by destruct (H metricType name). Qed.

Lemma step_metric_values_is_Some b c z :
  (∀ t n, c ≠ CallDefineMetric t n) →
  is_Some (metricIDToValue (step b c).2 !! z) ↔ is_Some (metricIDToValue b !! z).
Proof.
  intros H. step_cases c; try (by destruct (H metricType name));
    by apply insert_present_is_Some.
Qed.

Lemma step_metric_value_other b c id :
  (∀ t n, c ≠ CallDefineMetric t n) →
  (∀ d, c ≠ CallIncrementMetric id d) →
  (∀ v, c ≠ CallRecordMetric id v) →
  metricIDToValue (step b c).2 !! id = metricIDToValue b !! id.
Proof.
  intros H Hi Hr. step_cases c; try (by destruct (H metricType name)).
  - rewrite lookup_insert_ne; [done|]. intros ->. by destruct (Hi offset).
  - rewrite lookup_insert_ne; [done|]. intros ->. by destruct (Hr value).
Qed.

Lemma step_metricNameToID_persists b c name id :
  metricNameToID b !! name = Some id →
  metricNameToID (step b c).2 !! name = Some id.
Proof.
  intros H. destruct (call_define_or_not c) as [(t & n & ->)|Hc].
  - simpl. unfold ProxyDefineMetric.
    destruct (metricNameToID b !! n) as [i|] eqn:Hn; simpl; [done|].
    rewrite lookup_insert_ne; [done|]. intros ->. congruence.
  - by rewrite (proj1 (step_metricNameToID b c Hc)).
Qed.

Lemma run_metricNameToID_persists b tr name id :
  metricNameToID b !! name = Some id →
  metricNameToID (run b tr) !! name = Some id.
Proof.
  revert b. induction tr as [|c tr IH]; intros b Hb; [done|].
  rewrite run_cons. by apply IH, step_metricNameToID_persists.
Qed.

Lemma step_metric_names_size_le b c :
  (size (metricNameToID b) ≤ size (metricNameToID (step b c).2))%nat.
Proof.
  destruct (call_define_or_not c) as [(t & n & ->)|Hc].
  - simpl. unfold ProxyDefineMetric.
    destruct (metricNameToID b !! n) eqn:Hn; simpl; [done|].
    rewrite map_size_insert_None by done. lia.
  - by rewrite (proj1 (step_metricNameToID b c Hc)).
Qed.

Lemma run_metric_names_size_le b tr :
  (size (metricNameToID b) ≤ size (metricNameToID (run b tr)))%nat.
Proof.
  revert b. induction tr as [|c tr IH]; intros b; [done|].
  rewrite run_cons. etrans; [apply step_metric_names_size_le | apply IH].
Qed.

Lemma step_metrics_defined b c :
  metrics_defined b → metrics_defined (step b c).2.
Proof.
  intros Hm. destruct (call_define_or_not c) as [(t & n & ->)|Hc].
  - simpl. unfold ProxyDefineMetric.
    destruct (metricNameToID b !! n) as [i|] eqn:Hn; simpl; [done|].
    intros name id. simpl. rewrite lookup_insert_Some.
    rewrite !lookup_insert_is_Some'.
    intros [[<- <-]|[Hne Hi]]; [by split; left|].
    destruct (Hm name id Hi). by split; right.
  - intros name id.
    destruct (step_metricNameToID b c Hc) as [-> ->].
    rewrite step_metric_values_is_Some by done. apply Hm.
Qed.

Lemma run_metrics_defined b tr :
  metrics_defined b → metrics_defined (run b tr).
Proof.
  revert b. induction tr as [|c tr IH]; intros b Hb; [done|].
  rewrite run_cons. by apply IH, step_metrics_defined.
Qed.

Lemma newBaseHost_metrics_defined LogLevelMax :
  metrics_defined (newBaseHost LogLevelMax).
Proof. intros name id. simpl. by rewrite lookup_empty. Qed.

Lemma step_metric_value_stays b c id :
  is_Some (metricIDToValue b !! id) →
  is_Some (metricIDToValue (step b c).2 !! id).
Proof.
  intros Hs. destruct (call_define_or_not c) as [(t & n & ->)|Hc].
  - simpl. unfold ProxyDefineMetric.
    destruct (metricNameToID b !! n); simpl; [done|].
    rewrite lookup_insert_is_Some'. by right.
  - by rewrite step_metric_values_is_Some.
Qed.

Lemma run_metric_value_stays b tr id :
  is_Some (metricIDToValue b !! id) →
  is_Some (metricIDToValue (run b tr) !! id).
Proof.
  revert b. induction tr as [|c tr IH]; intros b Hb; [done|].
  rewrite run_cons. by apply IH, step_metric_value_stays.
Qed.

(** X12.  An ID answered by [ProxyDefineMetric] on a host reached from a
    new one is a defined metric from then on: after any further calls
    [ProxyIncrementMetric] and [ProxyRecordMetric] on it return
    [StatusOK] and [ProxyGetMetric] on it returns [StatusOK] with a value,
    never [StatusBadArgument]. *)
Theorem defined_id_stays_valid (LogLevelMax : nat) (b : baseHost)
    (metricType : MetricType) (name : string) :
  reachable LogLevelMax b →
  ∃ id b',
    ProxyDefineMetric b metricType name = (Returned StatusOK (Some id), b') ∧
    ∀ tr,
      (∀ offset,
         (ProxyIncrementMetric (run b' tr) id offset).1 = Returned StatusOK ()) ∧
      (∀ value,
         (ProxyRecordMetric (run b' tr) id value).1 = Returned StatusOK ()) ∧
      (∃ value,
         ProxyGetMetric (run b' tr) id
           = (Returned StatusOK (Some value), run b' tr)).
Proof.
  intros [tr0 ->].
  set (b := run (newBaseHost LogLevelMax) tr0).
  assert (Hm : metrics_defined b)
    by apply run_metrics_defined, newBaseHost_metrics_defined.
  assert (H : ∃ id b',
             ProxyDefineMetric b metricType name
               = (Returned StatusOK (Some id), b') ∧
             is_Some (metricIDToValue b' !! id)).
  { destruct (metricNameToID b !! name) as [id|] eqn:Hn.
    - exists id, b. split; [by apply ProxyDefineMetric_known|].
      by apply (Hm name).
    - do 2 eexists. split; [by apply ProxyDefineMetric_new|].
      simpl. rewrite lookup_insert_eq. eauto. }
  destruct H as (id & b' & Hdef & Hs). exists id, b'. split; [done|].
  intros tr. destruct (run_metric_value_stays b' tr id Hs) as [v Hv].
  unfold ProxyIncrementMetric, ProxyRecordMetric, ProxyGetMetric.
  rewrite Hv. split_and!; [done | done | by exists v].
Qed.

Lemma defined_id_stays_valid_witness :
  ∃ id b',
    ProxyDefineMetric (newBaseHost 6) MetricTypeCounter "requests"
      = (Returned StatusOK (Some id), b') ∧
    (ProxyIncrementMetric
       (run b' [CallDefineMetric MetricTypeGauge "latency";
                CallRecordMetric id 9]) id 1).1 = Returned StatusOK ().
Proof.
  destruct (defined_id_stays_valid 6 (newBaseHost 6) MetricTypeCounter "requests")
    as (id & b' & Hdef & Hlater); [by exists []|].
  exists id, b'. split; [exact Hdef|].
  apply (Hlater [CallDefineMetric MetricTypeGauge "latency"; CallRecordMetric id 9]).
Defined.

Lemma define_ids_cons b c tr :
  define_ids b (c :: tr) =
    match defined_id (mkEvent b c (step b c).1 (step b c).2) with
    | Some id => id :: define_ids (step b c).2 tr
    | None => define_ids (step b c).2 tr
    end.
Proof. reflexivity. Qed.

(** The IDs answered for pairwise distinct new metric names count up from
    the number of names. *)
Lemma define_ids_from b tr :
  NoDup (define_names tr) →
  (∀ n, n ∈ define_names tr → metricNameToID b !! n = None) →
  Z.of_nat (size (metricNameToID b)) + Z.of_nat (length (define_names tr))
    ≤ 2 ^ 32 →
  define_ids b tr
    = seqZ (Z.of_nat (size (metricNameToID b)))
           (Z.of_nat (length (define_names tr))).
Proof.
  revert b. induction tr as [|c tr IH]; intros b Hnd Hnew Hbound; [done|].
  rewrite define_ids_cons.
  destruct (call_define_or_not c) as [(t & n & ->)|Hc].
  - change (define_names (CallDefineMetric t n :: tr))
      with (n :: define_names tr) in *.
    apply NoDup_cons in Hnd as [Hn Hnd]. simpl in Hbound.
    assert (Hnone : metricNameToID b !! n = None) by (apply Hnew; left).
    assert (Hid : uint32 (Z.of_nat (size (metricNameToID b)))
                  = Z.of_nat (size (metricNameToID b)))
      by (apply uint32_small; lia).
    simpl step. rewrite ProxyDefineMetric_new by done. rewrite Hid.
    unfold defined_id. cbn [ev_call ev_resp fst snd answer].
    rewrite IH; [| done | |].
    + cbn [metricNameToID set_metricIDToType set_metricIDToValue
             set_metricNameToID length].
      rewrite map_size_insert_None by done.
      rewrite (seqZ_cons (Z.of_nat (size (metricNameToID b)))) by lia.
      do 2 f_equal; lia.
    + intros n' Hn'. cbn [metricNameToID set_metricIDToType
                            set_metricIDToValue set_metricNameToID].
      rewrite lookup_insert_ne.
      * apply Hnew. by right.
      * by intros ->.
    + cbn [metricNameToID set_metricIDToType set_metricIDToValue
             set_metricNameToID].
      rewrite map_size_insert_None by done. lia.
  - assert (Hnames : define_names (c :: tr) = define_names tr).
    { unfold define_names. simpl.
      destruct c; try done. by destruct (Hc metricType name). }
    rewrite Hnames in *.
    assert (He : defined_id (mkEvent b c (step b c).1 (step b c).2) = None).
    { unfold defined_id. simpl. destruct c; try done.
      by destruct (Hc metricType name). }
    destruct (step_metricNameToID b c Hc) as [Hsame _].
    rewrite He, IH; rewrite ?Hsame; done.
Qed.

(** X13.  [ProxyDefineMetric] always returns [StatusOK] with an ID; once
    a name has an ID, every later call with that name, with any kind and
    after any calls in between, answers the same ID and leaves the host,
    so the accumulated value, as it is.  From a new host, the calls for N
    pairwise distinct names (N at most 2^32), interleaved with any other
    calls, answer 0, 1, ..., N-1 in call order. *)
Theorem ProxyDefineMetric_idempotent_sequential (LogLevelMax : nat) :
  (∀ b metricType name, ∃ id b',
     ProxyDefineMetric b metricType name = (Returned StatusOK (Some id), b') ∧
     ∀ tr metricType',
       ProxyDefineMetric (run b' tr) metricType' name
         = (Returned StatusOK (Some id), run b' tr)) ∧
  (∀ tr,
     NoDup (define_names tr) →
     Z.of_nat (length (define_names tr)) ≤ 2 ^ 32 →
     define_ids (newBaseHost LogLevelMax) tr
       = seqZ 0 (Z.of_nat (length (define_names tr)))).
Proof.
  split.
  - intros b t name. destruct (metricNameToID b !! name) as [id|] eqn:Hn.
    + exists id, b. split; [by apply ProxyDefineMetric_known|].
      intros tr t'. by apply ProxyDefineMetric_known, run_metricNameToID_persists.
    + do 2 eexists. split; [by apply ProxyDefineMetric_new|].
      intros tr t'. apply ProxyDefineMetric_known, run_metricNameToID_persists.
      simpl. apply lookup_insert_eq.
  - intros tr Hnd Hbound.
    rewrite (define_ids_from (newBaseHost LogLevelMax) tr).
    + simpl. by rewrite map_size_empty.
    + done.
    + intros n _. simpl. apply lookup_empty.
    + simpl. rewrite map_size_empty. lia.
Qed.

Lemma ProxyDefineMetric_idempotent_sequential_witness :
  let tr := [CallDefineMetric MetricTypeCounter "a";
             CallIncrementMetric 0 5;
             CallDefineMetric MetricTypeGauge "b";
             CallSetTickPeriod 10;
             CallDefineMetric MetricTypeHistogram "c"] in
  define_ids (newBaseHost 6) tr = [0; 1; 2].
Proof.
  intros tr.
  destruct (ProxyDefineMetric_idempotent_sequential 6) as (_ & Hseq).
  apply (Hseq tr).
  - apply (bool_decide_unpack _). vm_compute. exact I.
  - vm_compute. discriminate.
Defined.

(** ** Metrics below 2^32 names *)

Lemma step_metrics_dense b c : metrics_dense b → metrics_dense (step b c).2.
Proof.
  intros Hinv. destruct (call_define_or_not c) as [(t & n & ->)|Hc].
  - simpl. unfold ProxyDefineMetric.
    destruct (metricNameToID b !! n) as [i|] eqn:Hn; simpl; [done|].
    unfold metrics_dense. simpl.
    rewrite (map_size_insert_None n) by done. intros Hb.
    destruct Hinv as (Hval & Hty & Hrange & Hinj); [lia|].
    rewrite (uint32_small (Z.of_nat (size (metricNameToID b)))) by lia.
    split_and!.
    + intros z. rewrite lookup_insert_is_Some, Hval. lia.
    + intros z. rewrite lookup_insert_is_Some, Hty. lia.
    + intros n' i. rewrite lookup_insert_Some.
      intros [[<- <-]|[Hne Hi]]; [lia|]. apply Hrange in Hi. lia.
    + intros n1 n2 i. rewrite !lookup_insert_Some.
      intros [[<- <-]|[Hne1 H1]] [[<- Hi]|[Hne2 H2]]; try done.
      * apply Hrange in H2. lia.
      * apply Hrange in H1. lia.
      * by eapply Hinj.
  - unfold metrics_dense.
    destruct (step_metricNameToID b c Hc) as [-> ->]. intros Hb.
    destruct Hinv as (Hval & Hty & Hrange & Hinj); [done|].
    split_and!; [|done..].
    intros z. rewrite step_metric_values_is_Some by done. apply Hval.
Qed.

Lemma run_metrics_dense b tr : metrics_dense b → metrics_dense (run b tr).
Proof.
  revert b. induction tr as [|c tr IH]; intros b Hb; [done|].
  rewrite run_cons. by apply IH, step_metrics_dense.
Qed.

Lemma newBaseHost_metrics_dense LogLevelMax :
  metrics_dense (newBaseHost LogLevelMax).
Proof.
  intros _. simpl. rewrite map_size_empty. split_and!.
  - intros z. rewrite lookup_empty. split; [by intros [? ?] | lia].
  - intros z. rewrite lookup_empty. split; [by intros [? ?] | lia].
  - intros *. by rewrite lookup_empty.
  - intros *. by rewrite lookup_empty.
Qed.

(** One call, below 2^32 names: the kind of a defined metric is kept, and
    its value is kept unless the call increments or records this metric. *)
Lemma step_metric_kept b c id :
  metrics_dense b →
  Z.of_nat (size (metricNameToID (step b c).2)) ≤ 2 ^ 32 →
  (is_Some (metricIDToType b !! id) →
     metricIDToType (step b c).2 !! id = metricIDToType b !! id) ∧
  (is_Some (metricIDToValue b !! id) →
     (∀ d, c ≠ CallIncrementMetric id d) →
     (∀ v, c ≠ CallRecordMetric id v) →
     metricIDToValue (step b c).2 !! id = metricIDToValue b !! id).
Proof.
  intros Hinv Hb. destruct (call_define_or_not c) as [(t & n & ->)|Hc].
  - revert Hb. simpl. unfold ProxyDefineMetric.
    destruct (metricNameToID b !! n) as [i|] eqn:Hn; simpl; [done|].
    rewrite (map_size_insert_None n) by done. intros Hb.
    destruct Hinv as (Hval & Hty & _); [lia|].
    rewrite (uint32_small (Z.of_nat (size (metricNameToID b)))) by lia.
    split.
    + intros Hs. apply Hty in Hs. rewrite lookup_insert_ne; [done | lia].
    + intros Hs _ _. apply Hval in Hs. rewrite lookup_insert_ne; [done | lia].
  - split.
    + intros _. by destruct (step_metricNameToID b c Hc) as [_ ->].
    + intros _ Hi Hr. by apply step_metric_value_other.
Qed.

(** X14.  Below 2^32 metric names, a defined metric is disturbed by
    nothing but its own updates.  On a host reached from a new one, after
    any sequence of calls that leaves at most 2^32 names, the kind stored
    for a metric ID is the kind it was first defined with (whatever kinds
    later definitions pass), and its value is unchanged if the sequence
    holds no [ProxyIncrementMetric] and no [ProxyRecordMetric] on that
    ID. *)
Theorem metric_kind_and_value_kept (LogLevelMax : nat) (b : baseHost)
    (id : Z) (tr : list call) :
  reachable LogLevelMax b →
  Z.of_nat (size (metricNameToID (run b tr))) ≤ 2 ^ 32 →
  (∀ t, metricIDToType b !! id = Some t →
        metricIDToType (run b tr) !! id = Some t) ∧
  (∀ v, metricIDToValue b !! id = Some v →
        Forall (λ c, (∀ d, c ≠ CallIncrementMetric id d) ∧
                     (∀ x, c ≠ CallRecordMetric id x)) tr →
        ProxyGetMetric (run b tr) id = (Returned StatusOK (Some v), run b tr)).
Proof.
  intros [tr0 ->] Hb.
  assert (Hinv : metrics_dense (run (newBaseHost LogLevelMax) tr0))
    by apply run_metrics_dense, newBaseHost_metrics_dense.
  revert Hinv Hb. generalize (run (newBaseHost LogLevelMax) tr0) as b.
  induction tr as [|c tr IH]; intros b Hinv Hb.
  - split; [done|]. intros v Hv _. unfold ProxyGetMetric. simpl. by rewrite Hv.
  - rewrite run_cons in *.
    pose proof (run_metric_names_size_le (step b c).2 tr) as Hle.
    destruct (step_metric_kept b c id Hinv) as [Hty Hval]; [lia|].
    destruct (IH (step b c).2) as [IHty IHval];
      [by apply step_metrics_dense | done |].
    split.
    + intros t Ht. apply IHty. rewrite Hty by eauto. done.
    + intros v Hv Htr. apply Forall_cons in Htr as [[Hi Hr] Htr].
      apply IHval; [|done]. rewrite Hval by eauto. done.
Qed.

Lemma metric_kind_and_value_kept_witness :
  let b := run (newBaseHost 6)
             [CallDefineMetric MetricTypeCounter "a"; CallIncrementMetric 0 5] in
  let tr := [CallDefineMetric MetricTypeGauge "a";
             CallDefineMetric MetricTypeGauge "b";
             CallIncrementMetric 1 7] in
  metricIDToType (run b tr) !! 0 = Some MetricTypeCounter ∧
  ProxyGetMetric (run b tr) 0 = (Returned StatusOK (Some 5), run b tr).
Proof.
  intros b tr.
  destruct (metric_kind_and_value_kept 6 b 0 tr) as [Hty Hval].
  - by exists [CallDefineMetric MetricTypeCounter "a"; CallIncrementMetric 0 5].
  - vm_compute. discriminate.
  - split.
    + apply Hty. reflexivity.
    + apply Hval; [reflexivity|]. repeat constructor; discriminate.
Defined.

(** X15.  Distinct metric names, distinct metrics: on a host reached from
    a new one with at most 2^32 defined names, two names never share an
    ID, and the IDs that have a value, like those that have a kind, are
    exactly 0 .. N-1, N the number of names. *)
Theorem metric_names_get_distinct_ids (LogLevelMax : nat) (b : baseHost) :
  reachable LogLevelMax b →
  Z.of_nat (size (metricNameToID b)) ≤ 2 ^ 32 →
  (∀ n1 n2 id, metricNameToID b !! n1 = Some id →
               metricNameToID b !! n2 = Some id → n1 = n2) ∧
  (∀ z, is_Some (metricIDToValue b !! z)
        ↔ 0 ≤ z < Z.of_nat (size (metricNameToID b))) ∧
  (∀ z, is_Some (metricIDToType b !! z)
        ↔ 0 ≤ z < Z.of_nat (size (metricNameToID b))).
Proof.
  intros [tr ->] Hb.
  destruct (run_metrics_dense (newBaseHost LogLevelMax) tr)
    as (Hval & Hty & _ & Hinj);
    [apply newBaseHost_metrics_dense | done |].
  done.
Qed.

Lemma metric_names_get_distinct_ids_witness :
  let b := run (newBaseHost 6)
             [CallDefineMetric MetricTypeCounter "a";
              CallDefineMetric MetricTypeGauge "b";
              CallDefineMetric MetricTypeGauge "a"] in
  (∀ n, metricNameToID b !! n = Some 1 → n = "b") ∧
  (is_Some (metricIDToValue b !! 2) ↔ 0 ≤ 2 < 2).
Proof.
  intros b.
  destruct (metric_names_get_distinct_ids 6 b) as (Hinj & Hval & _).
  - by exists [CallDefineMetric MetricTypeCounter "a";
               CallDefineMetric MetricTypeGauge "b";
               CallDefineMetric MetricTypeGauge "a"].
  - vm_compute. discriminate.
  - split; [|exact (Hval 2)].
    intros n Hn. apply (Hinj n "b" 1 Hn). reflexivity.
Defined.

(** ** The last accepted write *)

(** After one call the entry of a key is what the call stored, if it was
    an accepted write to the key, and what it was otherwise. *)
Lemma step_entry key b c :
  sharedDataKVS (step b c).2 !! key =
    match accepted_payload key (mkEvent b c (step b c).1 (step b c).2) with
    | Some (v, x) => Some (mkSharedData v (uint32 (x + 1)))
    | None => sharedDataKVS b !! key
    end.
Proof.
  destruct (call_set_key_or_not key c) as [(v & x & ->)|Hc].
  - destruct (sharedDataKVS b !! key) as [d|] eqn:Hd.
    + destruct (decide (cas d = x)) as [Hx|Hx].
      * destruct (step_set_accepted key b v x) as [Hk _]; [right; eauto|].
        rewrite Hk. unfold accepted_payload. simpl.
        rewrite (ProxySetSharedData_match _ _ _ _ d) by done. simpl.
        by rewrite decide_True.
      * unfold accepted_payload. simpl.
        rewrite (ProxySetSharedData_mismatch _ _ _ _ d) by done. done.
    + destruct (step_set_accepted key b v x) as [Hk _]; [by left|].
      rewrite Hk. unfold accepted_payload. simpl.
      rewrite ProxySetSharedData_absent by done. simpl.
      by rewrite decide_True.
  - destruct (step_other_keeps_key key b c Hc) as [Hk _]. rewrite Hk.
    unfold accepted_payload. simpl.
    destruct c; try done. repeat case_match; try done.
    subst. by destruct (Hc value cas_).
Qed.

(** X16.  The last accepted writer wins.  After any sequence of calls the
    entry of a key holds the payload of the last accepted
    [ProxySetSharedData] on that key, with the CAS that write passed plus
    1 (in [uint32]); rejected writes, writes to other keys and all other
    calls count for nothing.  Without an accepted write the entry is as it
    was. *)
Theorem entry_is_last_accepted_write (b : baseHost) (key : string)
    (tr : list call) :
  sharedDataKVS (run b tr) !! key =
    match last (accepted_payloads key b tr) with
    | Some (v, c) => Some (mkSharedData v (uint32 (c + 1)))
    | None => sharedDataKVS b !! key
    end.
Proof.
  induction tr as [|c tr IH] using rev_ind; [done|].
  unfold accepted_payloads in *.
  rewrite run_snoc, events_app, omap_app, step_entry. simpl.
  destruct (accepted_payload key _) as [[v x]|]; simpl.
  - by rewrite last_snoc.
  - by rewrite app_nil_r.
Qed.

(** ** The new host; logging and reading the logs *)

(** X17.  A new host is empty: the tick period is 0, every level below
    [LogLevelMax] has no messages, no queue ID is registered (size 0,
    dequeue and enqueue return [StatusNotFound]), no key is stored
    ([ProxyGetSharedData] returns [StatusNotFound]) and no metric is
    defined (get, increment and record return [StatusBadArgument]); none
    of these calls changes it. *)
Theorem newBaseHost_is_empty (LogLevelMax : nat) :
  let b := newBaseHost LogLevelMax in
  GetTickPeriod b = 0 ∧
  (∀ level, (level < LogLevelMax)%nat → GetLogs LogLevelMax b level = Some []) ∧
  (∀ id,
     GetQueueSize b id = 0 ∧
     ProxyDequeueSharedQueue b id = (Returned StatusNotFound noBuffer, b) ∧
     ∀ v, ProxyEnqueueSharedQueue b id v = (Returned StatusNotFound (), b)) ∧
  (∀ key,
     ProxyGetSharedData b key = (Returned StatusNotFound noSharedData, b)) ∧
  (∀ id,
     ProxyGetMetric b id = (Returned StatusBadArgument None, b) ∧
     (∀ d, ProxyIncrementMetric b id d = (Returned StatusBadArgument (), b)) ∧
     (∀ v, ProxyRecordMetric b id v = (Returned StatusBadArgument (), b))).
Proof.
  intros b. split_and!; [done | | done..].
  intros level Hlt. rewrite GetLogs_in_range by done. simpl.
  by rewrite lookup_replicate_2.
Qed.

Lemma newBaseHost_is_empty_witness :
  GetLogs 6 (newBaseHost 6) 5 = Some [] ∧
  ProxyGetSharedData (newBaseHost 6) "k"
    = (Returned StatusNotFound noSharedData, newBaseHost 6).
Proof.
  destruct (newBaseHost_is_empty 6) as (_ & Hlogs & _ & Hget & _).
  split; [apply Hlogs; lia | apply Hget].
Defined.

(** X18.  Logging and reading the logs agree on the levels.  On a host
    reached from a new one, [ProxyLog] at a level returns [StatusOK]
    exactly when [GetLogs] at that level answers, and it panics exactly
    when [GetLogs] at that level exits the process: the levels are those
    below [LogLevelMax] for both. *)
Theorem ProxyLog_succeeds_where_GetLogs_answers (LogLevelMax : nat)
    (b : baseHost) (level : nat) (msg : string) :
  reachable LogLevelMax b →
  ((ProxyLog b level msg).1 = Returned StatusOK ()
     ↔ is_Some (GetLogs LogLevelMax b level)) ∧
  ((ProxyLog b level msg).1 = Panicked ()
     ↔ GetLogs LogLevelMax b level = None) ∧
  (is_Some (GetLogs LogLevelMax b level) ↔ (level < LogLevelMax)%nat).
Proof.
  intros Hr. apply reachable_wf_logs in Hr. unfold wf_logs in Hr.
  unfold GetLogs. destruct (decide (LogLevelMax ≤ level)%nat) as [Hge|Hlt].
  - rewrite ProxyLog_out_of_range by lia. simpl. split_and!.
    + split; [done | by intros [? ?]].
    + done.
    + split; [by intros [? ?] | lia].
  - destruct (lookup_lt_is_Some_2 (logs b) level) as [bucket Hb]; [lia|].
    rewrite (ProxyLog_in_range _ _ _ bucket) by done. simpl. split_and!.
    + split; [eauto | done].
    + done.
    + split; [lia | eauto].
Qed.

Lemma ProxyLog_succeeds_where_GetLogs_answers_witness :
  let b := run (newBaseHost 6) [CallLog 1 "a"; CallLog 7 "b"] in
  (ProxyLog b 5 "m").1 = Returned StatusOK () ∧
  GetLogs 6 b 6 = None.
Proof.
  intros b.
  destruct (ProxyLog_succeeds_where_GetLogs_answers 6 b 5 "m") as (Hok & _);
    [by exists [CallLog 1 "a"; CallLog 7 "b"]|].
  destruct (ProxyLog_succeeds_where_GetLogs_answers 6 b 6 "m") as (_ & Hpanic & _);
    [by exists [CallLog 1 "a"; CallLog 7 "b"]|].
  split; [apply Hok; by eexists | apply Hpanic; reflexivity].
Defined.
